(** * maintainers/scripts/update.py: the parallel package updater

    A shallow embedding of [update.py] and the properties of its
    specification.  The script runs one update procedure per package on a
    thread pool, optionally commits the reported changes inside a per-thread
    git worktree and cherry-picks them onto the main checkout.

    Conventions of the embedding.
    - Python [str] and [bytes] are both [string] (a [str] is kept by its
      UTF-8 encoding, so the arrow of the commit message is three bytes).
    - The outside world (external processes, the JSON decoder, the standard
      input, the package file, temporary names) is a record [World] of
      functions; every theorem quantifies over it.
    - Sequential code lives in a state-and-exception monad [M] over a
      [store] (the chronological list of observable events and the set of
      held locks).  [Block] is the outcome of a thread that waits on a lock.
    - The thread pool is a transition system [step] on [pool] states, driven
      by a schedule (a list of [choice]s): the interleaving of the worker
      threads and of the coordinating main thread is the only source of
      non-determinism.
    - What varies is what the data decides: exit statuses, captured output,
      what the decoders accept.  Faults of the operating system (a command
      that cannot be started, a log file that cannot be written) and
      keyboard interrupts are left out, and the elements of the package
      list are taken to have the keys the script reads. *)

From stdpp Require Import base strings list gmap pretty.
From Stdlib Require Import ZArith Lia.

(** ** Data *)

Definition bytes := string.

(** The value [json.loads] returns.  A number keeps its literal. *)
#[warnings="-register-all"]
Inductive json :=
| JNull
| JBool (b : bool)
| JNum (literal : string)
| JStr (s : string)
| JArr (items : list json)
| JObj (members : list (string * json)).

(** One element of the package list.  [thread] is the key
    [package['thread']], absent until [run_update_script] stores it. *)
Record package := Package {
  name : string;
  pname : string;
  updateScript : list string;
  supportedFeatures : list string;
  thread : option string
}.

(** [subprocess.CompletedProcess]; a stream that was not piped is [None]. *)
Record completed := Completed {
  returncode : Z;
  stdout : option bytes;
  stderr : option bytes
}.

Inductive exn :=
| CalledProcessError (cmd : list string) (code : Z) (output : option bytes)
| JSONDecodeError
| TypeError
| KeyError (key : string)
| AttributeError
| UnicodeDecodeError
| UnboundLocalError (var : string)
| RuntimeError
| ValueError
| IndexError
| EOFError
| OSError
| SystemExit (code : option Z).

(** Everything an observer of the run can see, in chronological order. *)
Inductive event :=
| Eprint (line : string)
| Prompt (text : string)
| Acquire (lock : nat)
| Release (lock : nat)
| UpdateScript (args : list string) (cwd : option string)
| Git (args : list string) (cwd : option string)
| WriteLog (file : string) (data : bytes)
| MkTemp (dir : string)
| RmTemp (dir : string).

(** What an external process leaves behind. *)
Record proc_exit := ProcExit {
  exit_code : Z;
  out : bytes;
  err : bytes
}.

Record World := {
  (** [sys.argv] *)
  argv : list string;
  (** the line [input] reads, [None] at end of file *)
  stdin_line : option string;
  (** [json.load(open(path))], [None] when either step raises *)
  read_packages : string → option (list package);
  (** [tempfile.TemporaryDirectory()]: the directory of the [i]-th call is
      [tmp_root/tmp_name i], whose basename is [tmp_name i] *)
  tmp_root : string;
  tmp_name : nat → string;
  (** the exit of a process started with [args] in [cwd], given the events
      up to the moment it is waited for *)
  process : list event → list string → option string → proc_exit;
  (** [json.loads], [None] when it raises *)
  json_loads : bytes → option json;
  (** [bytes.decode('utf-8')], [None] when it raises *)
  decode_utf8 : bytes → option string;
  (** [str(v)] for a JSON value that is not a string *)
  py_str : json → string
}.

(** ** The monad of sequential code *)

Record store := Store {
  trace : list event;
  held : gset nat
}.

Inductive outcome (A : Type) :=
| Ret (a : A)
| Raise (e : exn)
| Block.
Arguments Ret {A} a.
Arguments Raise {A} e.
Arguments Block {A}.

Definition M (A : Type) : Type := store → outcome A * store.

#[global] Instance M_ret : MRet M := λ A a s, (Ret a, s).
#[global] Instance M_bind : MBind M := λ A B k m s,
  match m s with
  | (Ret a, s') => k a s'
  | (Raise e, s') => (Raise e, s')
  | (Block, s') => (Block, s')
  end.

Definition raise {A} (e : exn) : M A := λ s, (Raise e, s).

Definition lift {A} (o : outcome A) : M A := λ s, (o, s).

Definition emit (e : event) : M unit :=
  λ s, (Ret (), Store (trace s ++ [e]) (held s)).

(** [print(..., file=sys.stderr)] *)
Definition eprint (line : string) : M unit := emit (Eprint line).

(** [lock.acquire()]: waits while the lock is held. *)
Definition lock_acquire (l : nat) : M unit :=
  λ s, if bool_decide (l ∈ held s) then (Block, s)
       else (Ret (), Store (trace s ++ [Acquire l]) ({[l]} ∪ held s)).

(** [lock.release()]: releasing an unlocked lock is a [RuntimeError]. *)
Definition lock_release (l : nat) : M unit :=
  λ s, if bool_decide (l ∈ held s)
       then (Ret (), Store (trace s ++ [Release l]) (held s ∖ {[l]}))
       else (Raise RuntimeError, s).

Fixpoint for_each {A} (l : list A) (body : A → M unit) : M unit :=
  match l with
  | [] => mret ()
  | x :: l' => body x ;; for_each l' body
  end.

(** ** Python values *)

Fixpoint dict_get (k : string) (members : list (string * json)) : option json :=
  match members with
  | [] => None
  | (k', v) :: rest => if bool_decide (k' = k) then Some v else dict_get k rest
  end.

(** [for x in v]: a list gives its items, a dict its keys, a string its
    characters; anything else is not iterable. *)
Definition py_iter (v : json) : outcome (list json) :=
  match v with
  | JArr items => Ret items
  | JObj members => Ret (map (λ kv, JStr kv.1) members)
  | JStr s => Ret (map (λ c, JStr (String c EmptyString)) (String.list_ascii_of_string s))
  | _ => Raise TypeError
  end.

(** [v[k]] for a string key [k] *)
Definition py_getitem (v : json) (k : string) : outcome json :=
  match v with
  | JObj members =>
      match dict_get k members with
      | Some x => Ret x
      | None => Raise (KeyError k)
      end
  | _ => Raise TypeError
  end.

(** The right operand of [['git', 'add'] + v] must be a list, and
    [subprocess.run] accepts only strings as arguments. *)
Definition as_str (v : json) : option string :=
  match v with JStr s => Some s | _ => None end.

Definition py_str_list (v : json) : outcome (list string) :=
  match v with
  | JArr items =>
      match mapM as_str items with
      | Some l => Ret l
      | None => Raise TypeError
      end
  | _ => Raise TypeError
  end.

(** [temp_dirs]: the worktree, its branch and its lock, by thread name. *)
Abbreviation TempDirs := (gmap string (string * string * nat)).

Section Program.
Context (W : World).

(** A replacement field [{k}] of [str.format], filled from the keyword
    arguments the dict [change] is unpacked into. *)
Definition format_field (change : json) (k : string) : outcome string :=
  match py_getitem change k with
  | Ret (JStr s) => Ret s
  | Ret v => Ret (py_str W v)
  | Raise e => Raise e
  | Block => Block
  end.

(** The template ['{attrPath}: {oldVersion} → {newVersion}'] formatted with
    the members of [change] (line 49). *)
Definition commit_message (change : json) : outcome string :=
  match format_field change "attrPath" with
  | Ret a =>
      match format_field change "oldVersion" with
      | Ret o =>
          match format_field change "newVersion" with
          | Ret n => Ret (a +:+ ": " +:+ o +:+ " → " +:+ n)
          | Raise e => Raise e
          | Block => Block
          end
      | Raise e => Raise e
      | Block => Block
      end
  | Raise e => Raise e
  | Block => Block
  end.

(** ** External processes *)

(** The process is started: the call becomes visible. *)
Definition popen (site : list string → option string → event)
    (args : list string) (cwd : option string) : M unit :=
  emit (site args cwd).

(** The process has ended; with [check=True] a non-zero exit raises
    [CalledProcessError], which carries the piped output. *)
Definition wait_checked (args : list string) (piped : bool)
    (cwd : option string) : M completed :=
  λ s, let x := process W (trace s) args cwd in
       let o := if piped then Some (out x) else None in
       let e := if piped then Some (err x) else None in
       if bool_decide (exit_code x = 0%Z)
       then (Ret (Completed 0 o e), s)
       else (Raise (CalledProcessError args (exit_code x) o), s).

(** [subprocess.run(args, check=True, cwd=cwd)], with
    [stdout=PIPE, stderr=PIPE] when [piped]. *)
Definition subprocess_run (site : list string → option string → event)
    (args : list string) (piped : bool) (cwd : option string) : M completed :=
  popen site args cwd ;; wait_checked args piped cwd.

(** ** run_update_script (lines 21-32) *)

Definition supports_commit (commit : bool) (p : package) : bool :=
  commit && bool_decide ("commit" ∈ supportedFeatures p).

Definition set_thread (p : package) (t : string) : package :=
  Package (name p) (pname p) (updateScript p) (supportedFeatures p) (Some t).

(** Lines 22-30: everything before the process is started.  Returns the
    package as the caller sees it afterwards and the working directory. *)
Definition run_update_script_begin (thread_name : string) (p : package)
    (commit : bool) (temp_dirs : TempDirs) : M (package * option string) :=
  '(p', worktree) ←
    (if supports_commit commit p then
       match temp_dirs !! thread_name with
       | None => raise (KeyError thread_name)
       | Some (worktree, _branch, lock) =>
           lock_acquire lock ;;
           mret (set_thread p thread_name, Some worktree)
       end
     else mret (p, None)) ;
  eprint (" - " +:+ name p +:+ ": UPDATING ...") ;;
  mret (p', worktree).

(** Lines 22-32 up to the moment the process has been started. *)
Definition start_script (thread_name : string) (p : package) (commit : bool)
    (temp_dirs : TempDirs) : M (package * option string) :=
  '(p', worktree) ← run_update_script_begin thread_name p commit temp_dirs ;
  popen UpdateScript (updateScript p) worktree ;;
  mret (p', worktree).

Definition run_update_script (thread_name : string) (p : package)
    (commit : bool) (temp_dirs : TempDirs) : M (package * completed) :=
  '(p', worktree) ← run_update_script_begin thread_name p commit temp_dirs ;
  c ← subprocess_run UpdateScript (updateScript p) true worktree ;
  mret (p', c).

(** ** commit_changes (lines 45-51) *)

Definition commit_change (worktree branch : string) (change : json) : M unit :=
  files ← lift (py_getitem change "files") ;
  paths ← lift (py_str_list files) ;
  subprocess_run Git (["git"; "add"] ++ paths) false (Some worktree) ;;
  commit_message ← lift (commit_message change) ;
  subprocess_run Git ["git"; "commit"; "-m"; commit_message] false (Some worktree) ;;
  subprocess_run Git ["git"; "cherry-pick"; branch] false None ;;
  mret ().

Definition commit_changes (worktree branch : string) (execution : completed)
    : M unit :=
  match stdout execution with
  | None => raise TypeError
  | Some captured =>
      match json_loads W captured with
      | None => raise JSONDecodeError
      | Some changes =>
          items ← lift (py_iter changes) ;
          for_each items (commit_change worktree branch)
      end
  end.

(** ** merge_changes (lines 53-76) *)

(** The [try] block.  Besides its outcome it gives the binding of the local
    variable [lock] at the moment the block is left: [None] while line 58
    has not been executed. *)
Definition merge_try (p : package) (future : outcome completed) (commit : bool)
    (temp_dirs : TempDirs) (s : store) : outcome unit * option nat * store :=
  match future with
  | Raise e => (Raise e, None, s)
  | Block => (Block, None, s)
  | Ret execution =>
      if supports_commit commit p then
        match thread p with
        | None => (Raise (KeyError "thread"), None, s)
        | Some thread_name =>
            match temp_dirs !! thread_name with
            | None => (Raise (KeyError thread_name), None, s)
            | Some (worktree, branch, lock) =>
                let '(r, s') :=
                  (commit_changes worktree branch execution ;;
                   eprint (" - " +:+ name p +:+ ": DONE.")) s in
                (r, Some lock, s')
            end
        end
      else
        let '(r, s') := eprint (" - " +:+ name p +:+ ": DONE.") s in
        (r, None, s')
  end.

Definition error_banner (p : package) : string :=
  "--- SHOWING ERROR LOG FOR " +:+ name p +:+ " ----------------------".

(** The [except subprocess.CalledProcessError as e] block. *)
Definition merge_except (p : package) (output : option bytes)
    (keep_going : bool) : M unit :=
  eprint (" - " +:+ name p +:+ ": ERROR") ;;
  eprint "" ;;
  eprint (error_banner p) ;;
  eprint "" ;;
  match output with
  | None => raise AttributeError
  | Some captured =>
      match decode_utf8 W captured with
      | None => raise UnicodeDecodeError
      | Some text =>
          eprint text ;;
          emit (WriteLog (pname p +:+ ".log") captured) ;;
          eprint "" ;;
          eprint (error_banner p) ;;
          if keep_going then mret () else raise (SystemExit (Some 1%Z))
      end
  end.

(** The [finally] block: it runs whatever happened before, and an exception
    it raises replaces the pending one. *)
Definition merge_finally (p : package) (commit : bool) (lock : option nat)
    (pending : outcome unit) : M unit :=
  λ s, if supports_commit commit p then
         match lock with
         | None => (Raise (UnboundLocalError "lock"), s)
         | Some l =>
             match lock_release l s with
             | (Ret _, s') => (pending, s')
             | other => other
             end
         end
       else (pending, s).

Definition merge_changes (p : package) (future : outcome completed)
    (commit keep_going : bool) (temp_dirs : TempDirs) : M unit :=
  λ s, let '(r, lock, s1) := merge_try p future commit temp_dirs s in
       let '(r', s2) :=
         match r with
         | Raise (CalledProcessError _ _ output) =>
             merge_except p output keep_going s1
         | _ => (r, s1)
         end in
       merge_finally p commit lock r' s2.

(** ** make_worktree (lines 34-43) *)

(** A worktree context that has been entered: the tuple the generator
    yielded and the temporary directory it sits in. *)
Record worktree_ctx := WorktreeCtx {
  target_directory : string;
  branch_name : string;
  temp_directory : string
}.

(** Entering the context runs the generator up to its [yield].  When
    [git worktree add] fails the exception leaves the generator through the
    [with tempfile.TemporaryDirectory()] block, which removes the directory. *)
Definition make_worktree_enter (i : nat) : M worktree_ctx :=
  λ s, let wt := tmp_root W +:+ "/" +:+ tmp_name W i in
       let branch_name := "update-" +:+ tmp_name W i in
       let target_directory := wt +:+ "/nixpkgs" in
       match (emit (MkTemp wt) ;;
              subprocess_run Git
                ["git"; "worktree"; "add"; "-b"; branch_name; target_directory]
                false None) s with
       | (Ret _, s') => (Ret (WorktreeCtx target_directory branch_name wt), s')
       | (Raise e, s') => (emit (RmTemp wt) ;; raise e) s'
       | (Block, s') => (Block, s')
       end.

(** Leaving the context.  Without a pending exception the generator is
    resumed after its [yield] (lines 42-43); with one, the exception is
    thrown into the generator at the [yield], so that lines 42-43 are
    skipped.  The temporary directory is removed in both cases.  The result
    is the exception that is pending afterwards. *)
Definition make_worktree_exit (c : worktree_ctx) (pending : option exn)
    : store → option exn * store :=
  λ s, match pending with
       | Some e =>
           let '(_, s') := emit (RmTemp (temp_directory c)) s in (Some e, s')
       | None =>
           let '(r, s1) :=
             (subprocess_run Git
                ["git"; "worktree"; "remove"; target_directory c] false None ;;
              subprocess_run Git
                ["git"; "branch"; "-D"; branch_name c] false None) s in
           let '(_, s2) := emit (RmTemp (temp_directory c)) s1 in
           match r with
           | Raise e => (Some e, s2)
           | _ => (None, s2)
           end
       end.

(** [contextlib.ExitStack.__exit__]: the contexts are left last in, first
    out ([stack] has the last one entered first); an exception raised by one
    of them is passed to those that remain. *)
Fixpoint exit_stack (stack : list worktree_ctx) (pending : option exn)
    : store → option exn * store :=
  λ s, match stack with
       | [] => (pending, s)
       | c :: rest =>
           let '(pending', s') := make_worktree_exit c pending s in
           exit_stack rest pending' s'
       end.

(** ** The thread pool *)

Definition thread_name_prefix : string := "UpdateScriptThread".

(** The name [ThreadPoolExecutor] gives its [i]-th thread. *)
Definition thread_name (i : nat) : string :=
  thread_name_prefix +:+ "_" +:+ pretty i.

(** Line 95: the dict comprehension over [range(max_workers)].  It gives the
    contexts entered so far also when an entry fails. *)
Fixpoint make_temp_dirs (indices : list nat) (stack : list worktree_ctx)
    (temp_dirs : TempDirs) (s : store)
    : outcome TempDirs * list worktree_ctx * store :=
  match indices with
  | [] => (Ret temp_dirs, stack, s)
  | i :: rest =>
      match make_worktree_enter i s with
      | (Ret c, s') =>
          make_temp_dirs rest (c :: stack)
            (<[thread_name i := (target_directory c, branch_name c, i)]> temp_dirs)
            s'
      | (Raise e, s') => (Raise e, stack, s')
      | (Block, s') => (Block, stack, s')
      end
  end.

(** A worker thread is idle, has taken a work item off the queue (it is
    inside [run_update_script], before the process is started), or waits
    for the process it started. *)
Inductive wstate :=
| Idle
| Taken (p : nat)
| Running (p : nat) (cwd : option string).

#[global] Instance wstate_eq_dec : EqDecision wstate.
Proof. solve_decision. Defined.

(** The state of the [with] block of line 93.  Packages and futures are
    named by their position in the package list. *)
Record pool := Pool {
  sto : store;
  (** the package dicts, which the worker threads update in place *)
  pkgs : list package;
  (** how many packages the loop of line 99 has submitted *)
  submitted : nat;
  (** the work queue of the executor: submitted, not yet taken *)
  queue : list nat;
  workers : list wstate;
  (** the futures that are done, with what [future.result()] gives *)
  finished : gmap nat (outcome completed);
  (** the futures the loop of line 102 has taken from [as_completed] *)
  yielded : gset nat;
  (** the exception that ended the loop of line 102, if any *)
  leaving : option exn
}.

(** The moves of a schedule: the main thread submits the next package
    (line 100); worker [i] makes its next move; the main thread takes the
    finished future of package [p] from [as_completed] and merges it
    (lines 102-105).

    The executor starts its threads on demand, in the order of their index;
    here all [max_workers] of them exist from the start, which allows every
    assignment of packages to threads the executor can produce.  Likewise
    [as_completed] may yield the finished futures in any order.  One call of
    [merge_changes] is one move: its events are recorded together. *)
Inductive choice :=
| Submit
| Worker (i : nat)
| Merge (p : nat).

Section Pool.
Context (commit keep_going : bool) (temp_dirs : TempDirs).

Definition step_submit (s : pool) : option pool :=
  if bool_decide (leaving s = None ∧ submitted s < length (pkgs s)) then
    Some (Pool (sto s) (pkgs s) (S (submitted s)) (queue s ++ [submitted s])
               (workers s) (finished s) (yielded s) (leaving s))
  else None.

(** An idle worker takes the head of the queue.  A worker inside
    [run_update_script] acquires the lock of its worktree when the package
    commits, which is possible only while the lock is free, and starts the
    update script ([start_script]).  A worker whose script has ended
    completes the future with what [subprocess.run] returns or raises. *)
Definition step_worker (i : nat) (s : pool) : option pool :=
  match workers s !! i with
  | None => None
  | Some Idle =>
      match queue s with
      | [] => None
      | p :: rest =>
          Some (Pool (sto s) (pkgs s) (submitted s) rest
                     (<[i := Taken p]> (workers s)) (finished s) (yielded s)
                     (leaving s))
      end
  | Some (Taken p) =>
      match pkgs s !! p with
      | None => None
      | Some pk =>
          match start_script (thread_name i) pk commit temp_dirs (sto s) with
          | (Ret (pk', cwd), st) =>
              Some (Pool st (<[p := pk']> (pkgs s)) (submitted s) (queue s)
                         (<[i := Running p cwd]> (workers s)) (finished s)
                         (yielded s) (leaving s))
          | (Raise e, st) =>
              Some (Pool st (pkgs s) (submitted s) (queue s)
                         (<[i := Idle]> (workers s))
                         (<[p := Raise e]> (finished s)) (yielded s) (leaving s))
          | (Block, _) => None
          end
      end
  | Some (Running p cwd) =>
      match pkgs s !! p with
      | None => None
      | Some pk =>
          let '(r, st) := wait_checked (updateScript pk) true cwd (sto s) in
          Some (Pool st (pkgs s) (submitted s) (queue s)
                     (<[i := Idle]> (workers s))
                     (<[p := r]> (finished s)) (yielded s) (leaving s))
      end
  end.

(** [as_completed] yields a future that is done and has not been yielded;
    the loop body merges it.  An exception of [merge_changes] ends the loop. *)
Definition step_merge (p : nat) (s : pool) : option pool :=
  if bool_decide (leaving s = None ∧ submitted s = length (pkgs s)
                  ∧ p ∉ yielded s) then
    match finished s !! p, pkgs s !! p with
    | Some future, Some pk =>
        match merge_changes pk future commit keep_going temp_dirs (sto s) with
        | (Ret _, st) =>
            Some (Pool st (pkgs s) (submitted s) (queue s) (workers s)
                       (finished s) ({[p]} ∪ yielded s) None)
        | (Raise e, st) =>
            Some (Pool st (pkgs s) (submitted s) (queue s) (workers s)
                       (finished s) ({[p]} ∪ yielded s) (Some e))
        | (Block, _) => None
        end
    | _, _ => None
    end
  else None.

Definition step (c : choice) (s : pool) : option pool :=
  match c with
  | Submit => step_submit s
  | Worker i => step_worker i s
  | Merge p => step_merge p s
  end.

(** A move that is not possible in the current state leaves it unchanged. *)
Fixpoint exec (sched : list choice) (s : pool) : pool :=
  match sched with
  | [] => s
  | c :: rest => exec rest (default s (step c s))
  end.

End Pool.

(** [ThreadPoolExecutor.__exit__] is [shutdown(wait=True)]: it returns when
    the work queue is empty and every worker is idle; futures that are still
    queued are run, not cancelled. *)
Definition drained (s : pool) : bool :=
  bool_decide (queue s = []) && forallb (λ w, bool_decide (w = Idle)) (workers s).

(** How the body of the [with] block has ended, once the executor has shut
    down: normally when every future has been merged, or by the exception
    that left the loop.  [None] while the block is still running. *)
Definition pool_done (s : pool) : option (option exn) :=
  if drained s then
    match leaving s with
    | Some e => Some (Some e)
    | None =>
        if bool_decide (submitted s = length (pkgs s))
           && forallb (λ p, bool_decide (p ∈ yielded s)) (seq 0 (length (pkgs s)))
        then Some None
        else None
    end
  else None.

Definition pool_init (s : store) (packages : list package) (n : nat) : pool :=
  Pool s packages 0 [] (replicate n Idle) ∅ ∅ None.

(** ** main (lines 78-112) *)

(** What a run has come to.  [ended] is the exception that left [main]
    ([main] never returns normally), [None] while the thread pool is still
    at work under the given schedule. *)
Record run := Run {
  final : store;
  ended : option exn;
  worktrees : TempDirs;
  dispatch : option pool
}.

(** [input(prompt)] *)
Definition input (prompt : string) : M string :=
  emit (Prompt prompt) ;;
  match stdin_line W with
  | Some line => mret line
  | None => raise EOFError
  end.

(** Lines 79-91 and 110-112: the package list is read from the file named
    by [sys.argv[1]], whatever was passed as [packages]; the result is the
    list to process when the operator confirmed. *)
Definition main_prelude (packages : list package) : M (list package) :=
  path ← match argv W !! 1 with
         | Some path => mret path
         | None => raise IndexError
         end ;
  packages ← match read_packages W path with
             | Some loaded => mret loaded
             | None => raise OSError
             end ;
  eprint "" ;;
  eprint "Going to be running update for following packages:" ;;
  for_each packages (λ p, eprint (" - " +:+ name p)) ;;
  eprint "" ;;
  confirm ← input "Press Enter key to continue..." ;
  if bool_decide (confirm = "") then
    eprint "" ;;
    eprint "Running update for:" ;;
    mret packages
  else
    eprint "Aborting!" ;;
    raise (SystemExit (Some 130%Z)).

(** Lines 107-109. *)
Definition main_epilogue : M unit :=
  eprint "" ;;
  eprint "Packages updated!" ;;
  raise (SystemExit None).

(** Lines 93-105: the [with] block and what follows it. *)
Definition main_block (max_workers : Z) (keep_going commit : bool)
    (packages : list package) (sched : list choice) (s : store) : run :=
  if bool_decide (max_workers ≤ 0)%Z then Run s (Some ValueError) ∅ None
  else
    let '(r, stack, s1) :=
      if commit then make_temp_dirs (seq 0 (Z.to_nat max_workers)) [] ∅ s
      else (Ret ∅, [], s) in
    match r with
    | Raise e =>
        let '(pending, s2) := exit_stack stack (Some e) s1 in
        Run s2 pending ∅ None
    | Block => Run s1 None ∅ None
    | Ret temp_dirs =>
        let p := exec commit keep_going temp_dirs sched
                   (pool_init s1 packages (Z.to_nat max_workers)) in
        match pool_done p with
        | None => Run (sto p) None temp_dirs (Some p)
        | Some pending =>
            match exit_stack stack pending (sto p) with
            | (Some e, s2) => Run s2 (Some e) temp_dirs (Some p)
            | (None, s2) =>
                match main_epilogue s2 with
                | (Raise e, s3) => Run s3 (Some e) temp_dirs (Some p)
                | (_, s3) => Run s3 None temp_dirs (Some p)
                end
            end
        end
    end.

Definition main (max_workers : Z) (keep_going commit : bool)
    (packages : list package) (sched : list choice) (s : store) : run :=
  match main_prelude packages s with
  | (Ret loaded, s') => main_block max_workers keep_going commit loaded sched s'
  | (Raise e, s') => Run s' (Some e) ∅ None
  | (Block, s') => Run s' None ∅ None
  end.

(** ** The script body (lines 120-129) *)

(** What the operating system sees of a finished run. *)
Record exit := Exit {
  events : list event;
  (** the process exit status *)
  status : Z;
  (** the futures [update.cancel()] has cancelled: those still queued *)
  cancelled : list nat
}.

(** [sys.exit(code)] with [None] is status 0.  An exception that nothing
    catches ends the interpreter with status 1. *)
Definition exit_status (e : exn) : Z :=
  match e with
  | SystemExit None => 0
  | SystemExit (Some code) => code
  | _ => 1
  end.

Definition is_system_exit (e : exn) : bool :=
  match e with SystemExit _ => true | _ => false end.

(** The script body: [main] with the parsed arguments, and the handler of
    [SystemExit] that cancels every future and exits with the same code.
    [None] while the thread pool is still at work under [sched]. *)
Definition script (max_workers : Z) (keep_going commit : bool)
    (packages : list package) (sched : list choice) : option exit :=
  let r := main max_workers keep_going commit packages sched (Store [] ∅) in
  match ended r with
  | None => None
  | Some e =>
      Some (Exit (trace (final r)) (exit_status e)
                 (if is_system_exit e
                  then from_option queue [] (dispatch r) else []))
  end.

End Program.

(** * Vocabulary of the specification *)

(** A Change Record as the specification describes it: an attribute path,
    the old and the new version, and the list of files touched. *)
Record change := Change {
  attrPath : string;
  oldVersion : string;
  newVersion : string;
  files : list string
}.

(** The Change Record a JSON value stands for, when it is one. *)
Definition as_change (v : json) : option change :=
  match py_getitem v "attrPath", py_getitem v "oldVersion",
        py_getitem v "newVersion", py_getitem v "files" with
  | Ret (JStr a), Ret (JStr o), Ret (JStr n), Ret (JArr fs) =>
      Change a o n <$> mapM as_str fs
  | _, _, _, _ => None
  end.

(** The commit message the specification asks for. *)
Definition message_of (c : change) : string :=
  attrPath c +:+ ": " +:+ oldVersion c +:+ " → " +:+ newVersion c.

Definition git_add (worktree : string) (c : change) : event :=
  Git (["git"; "add"] ++ files c) (Some worktree).
Definition git_commit (worktree : string) (c : change) : event :=
  Git ["git"; "commit"; "-m"; message_of c] (Some worktree).
Definition git_cherry_pick (branch : string) : event :=
  Git ["git"; "cherry-pick"; branch] None.

(** What committing one Change Record shows. *)
Definition change_events (worktree branch : string) (c : change) : list event :=
  [git_add worktree c; git_commit worktree c; git_cherry_pick branch].

(** The [git commit] calls made inside [worktree]. *)
Definition is_commit_in (worktree : string) (e : event) : bool :=
  match e with
  | Git ("git" :: "commit" :: _) (Some d) => bool_decide (d = worktree)
  | _ => false
  end.

(** Every [git] command succeeds. *)
Definition git_succeeds (W : World) : Prop :=
  ∀ history args cwd, exit_code (process W history ("git" :: args) cwd) = 0%Z.

(** * Vocabulary of the proofs *)

(** [obeys P Q m]: [m] only appends events that satisfy [P], leaves the
    locks alone, never waits, and raises only exceptions that satisfy [Q]. *)
Definition obeys {A} (P : event → Prop) (Q : exn → Prop) (m : M A) : Prop :=
  ∀ s r s', m s = (r, s') →
    (∃ new, trace s' = trace s ++ new ∧ Forall P new)
    ∧ held s' = held s
    ∧ r ≠ Block
    ∧ (∀ e, r = Raise e → Q e).

Definition is_git (e : event) : Prop :=
  match e with Git _ _ => True | _ => False end.

Definition is_lock_event (e : event) : Prop :=
  match e with Acquire _ | Release _ => True | _ => False end.

(** The exceptions that end the interpreter with a non-zero status. *)
Definition failing (e : exn) : Prop := exit_status e ≠ 0%Z.


(** What [main] shows before it asks for confirmation. *)
Definition announcement (packages : list package) : list event :=
  [Eprint ""; Eprint "Going to be running update for following packages:"]
  ++ ((λ p, Eprint (" - " +:+ name p)) <$> packages)
  ++ [Eprint ""; Prompt "Press Enter key to continue..."].

(** The events of a run that has no worktree: messages, the prompt, log
    files, and update scripts started in the default directory.  No [git]
    command, no temporary directory, no lock. *)
Definition without_workspace (e : event) : Prop :=
  match e with
  | Eprint _ | Prompt _ | WriteLog _ _ | UpdateScript _ None => True
  | _ => False
  end.

(** The moves of the thread pool as a relation: [transition s s'] when some
    choice takes [s] to [s']. *)
Inductive transition (W : World) (commit keep_going : bool)
    (temp_dirs : TempDirs) : pool → pool → Prop :=
| t_submit s :
    leaving s = None →
    submitted s < length (pkgs s) →
    transition W commit keep_going temp_dirs s
      (Pool (sto s) (pkgs s) (S (submitted s)) (queue s ++ [submitted s])
            (workers s) (finished s) (yielded s) (leaving s))
| t_take s i p rest :
    workers s !! i = Some Idle →
    queue s = p :: rest →
    transition W commit keep_going temp_dirs s
      (Pool (sto s) (pkgs s) (submitted s) rest (<[i := Taken p]> (workers s))
            (finished s) (yielded s) (leaving s))
| t_start s i p pk pk' cwd st :
    workers s !! i = Some (Taken p) →
    pkgs s !! p = Some pk →
    start_script (thread_name i) pk commit temp_dirs (sto s) = (Ret (pk', cwd), st) →
    transition W commit keep_going temp_dirs s
      (Pool st (<[p := pk']> (pkgs s)) (submitted s) (queue s)
            (<[i := Running p cwd]> (workers s)) (finished s) (yielded s)
            (leaving s))
| t_start_raise s i p pk e st :
    workers s !! i = Some (Taken p) →
    pkgs s !! p = Some pk →
    start_script (thread_name i) pk commit temp_dirs (sto s) = (Raise e, st) →
    transition W commit keep_going temp_dirs s
      (Pool st (pkgs s) (submitted s) (queue s) (<[i := Idle]> (workers s))
            (<[p := Raise e]> (finished s)) (yielded s) (leaving s))
| t_finish s i p cwd pk r st :
    workers s !! i = Some (Running p cwd) →
    pkgs s !! p = Some pk →
    wait_checked W (updateScript pk) true cwd (sto s) = (r, st) →
    transition W commit keep_going temp_dirs s
      (Pool st (pkgs s) (submitted s) (queue s) (<[i := Idle]> (workers s))
            (<[p := r]> (finished s)) (yielded s) (leaving s))
| t_merge s p future pk r st :
    leaving s = None →
    submitted s = length (pkgs s) →
    p ∉ yielded s →
    finished s !! p = Some future →
    pkgs s !! p = Some pk →
    merge_changes W pk future commit keep_going temp_dirs (sto s) = (r, st) →
    r ≠ Block →
    transition W commit keep_going temp_dirs s
      (Pool st (pkgs s) (submitted s) (queue s) (workers s) (finished s)
            ({[p]} ∪ yielded s)
            (match r with Raise e => Some e | _ => None end)).

(** What the future of an update script holds in a run without commit
    integration: the completed process, or the [CalledProcessError] of
    [check=True] with the piped output. *)
Definition plain_future (f : outcome completed) : Prop :=
  match f with
  | Ret _ | Raise (CalledProcessError _ _ (Some _)) => True
  | _ => False
  end.

(** Every captured output is valid UTF-8. *)
Definition decodes (W : World) : Prop := ∀ b, is_Some (decode_utf8 W b).

(** The invariant of a keep-going run without commit integration over [n]
    packages: the loop of line 102 is never left by an exception. *)
Record keeps_going (n : nat) (s : pool) : Prop := KeepsGoing {
  kg_length : length (pkgs s) = n;
  kg_leaving : leaving s = None;
  kg_finished : ∀ p f, finished s !! p = Some f → plain_future f;
  kg_yielded : ∀ p, p ∈ yielded s → is_Some (finished s !! p)
}.

(** The state of the sequential schedule before round [k]: packages
    [0 .. k-1] are merged, the others are queued, all [m] workers are idle. *)
Record at_round (n m k : nat) (s : pool) : Prop := AtRound {
  ar_keeps : keeps_going n s;
  ar_submitted : submitted s = n;
  ar_queue : queue s = seq k (n - k);
  ar_workers : workers s = replicate m Idle;
  ar_yielded : ∀ p, p ∈ yielded s ↔ p < k
}.

(** Every submitted package is somewhere: in the queue, with a worker, or
    done.  Once the loop of line 102 has been left, all [n] packages had
    been submitted. *)
Record accounted (n : nat) (s : pool) : Prop := Accounted {
  ac_length : length (pkgs s) = n;
  ac_submitted : submitted s ≤ n;
  ac_leaving : leaving s ≠ None → submitted s = n;
  ac_where : ∀ p, p < submitted s →
    p ∈ queue s
    ∨ (∃ i, workers s !! i = Some (Taken p))
    ∨ (∃ i cwd, workers s !! i = Some (Running p cwd))
    ∨ is_Some (finished s !! p)
}.

(** The context [make_worktree] yields on its [i]-th call. *)
Definition worktree_of (W : World) (i : nat) : worktree_ctx :=
  let wt := tmp_root W +:+ "/" +:+ tmp_name W i in
  WorktreeCtx (wt +:+ "/nixpkgs") ("update-" +:+ tmp_name W i) wt.

(** What a worktree context shows when it is left without an error:
    lines 42-43 and the removal of the temporary directory. *)
Definition cleanup_events (c : worktree_ctx) : list event :=
  [Git ["git"; "worktree"; "remove"; target_directory c] None;
   Git ["git"; "branch"; "-D"; branch_name c] None;
   RmTemp (temp_directory c)].

(** No exception met in the pool is a clean exit: neither those stored in
    the futures nor the one that left the loop. *)
Record fails_loudly (s : pool) : Prop := FailsLoudly {
  fl_leaving : ∀ e, leaving s = Some e → failing e;
  fl_finished : ∀ p e, finished s !! p = Some (Raise e) → failing e
}.

(** * Vocabulary of the further properties *)

(** The events [commit_changes] can cause for a worktree and its branch:
    [git add] and [git commit -m] inside the worktree, [git cherry-pick] of
    the branch in the default directory. *)
Definition commit_changes_event (worktree branch : string) (e : event) : Prop :=
  (∃ paths, e = Git ("git" :: "add" :: paths) (Some worktree))
  ∨ (∃ message, e = Git ["git"; "commit"; "-m"; message] (Some worktree))
  ∨ e = Git ["git"; "cherry-pick"; branch] None.

(** The exceptions [commit_changes] can raise: those of the decoder and of
    ill-shaped records, and the [CalledProcessError] of a [git] command,
    whose output was not piped. *)
Definition commit_changes_error (e : exn) : Prop :=
  match e with
  | JSONDecodeError | TypeError | KeyError _ | CalledProcessError _ _ None => True
  | _ => False
  end.

(** The command line of line 40 for the [i]-th worktree. *)
Definition worktree_add (W : World) (i : nat) : list string :=
  ["git"; "worktree"; "add"; "-b"; branch_name (worktree_of W i);
   target_directory (worktree_of W i)].

(** What entering the [i]-th worktree context shows. *)
Definition creation_events (W : World) (i : nat) : list event :=
  [MkTemp (temp_directory (worktree_of W i)); Git (worktree_add W i) None].

(** The futures of a pool of [m] workers hold nothing but the outcome of
    the update script. *)
Record only_script_outcomes (m : nat) (s : pool) : Prop := OnlyScriptOutcomes {
  oso_workers : length (workers s) = m;
  oso_finished : ∀ p f, finished s !! p = Some f → plain_future f
}.

(** Worker [i] has taken package [p], which needs the lock [l], and the
    loop of line 102 has been left while [l] was held. *)
Record stuck_on (i p l : nat) (s : pool) : Prop := StuckOn {
  so_leaving : leaving s ≠ None;
  so_worker : workers s !! i = Some (Taken p);
  so_package : ∃ pk, pkgs s !! p = Some pk ∧ supports_commit true pk = true;
  so_held : l ∈ held (sto s)
}.

(** Worker [i] has package [p]: it has taken it or runs its script. *)
Definition has_package (s : pool) (i p : nat) : Prop :=
  workers s !! i = Some (Taken p) ∨ ∃ cwd, workers s !! i = Some (Running p cwd).

(** Every package is in one place at most: in the queue, with one worker, or
    done; and only what is done has been merged. *)
Record places (s : pool) : Prop := Places {
  pl_queue : NoDup (queue s);
  pl_queued : ∀ p, p ∈ queue s →
    p < submitted s ∧ (∀ i, ¬ has_package s i p) ∧ finished s !! p = None;
  pl_worker : ∀ i j p, has_package s i p → has_package s j p → i = j;
  pl_taken : ∀ i p, has_package s i p →
    finished s !! p = None ∧ p < submitted s;
  pl_finished : ∀ p, is_Some (finished s !! p) → p < submitted s;
  pl_yielded : ∀ p, p ∈ yielded s → is_Some (finished s !! p)
}.

(** [package['thread']] of package [p], when it is set. *)
Definition thread_of (s : pool) (p : nat) : option string :=
  (pkgs s !! p) ≫= thread.

(** Package [p] has the commit feature. *)
Definition commits (s : pool) (p : nat) : Prop :=
  ∃ pk, pkgs s !! p = Some pk ∧ supports_commit true pk = true.

(** Package [p] is inside the worktree of thread [i]: it has the commit
    feature, and either worker [i] runs its script, or its script has ended
    on thread [i] and it has not been merged yet. *)
Definition inside (s : pool) (i p : nat) : Prop :=
  commits s p
  ∧ ((∃ cwd, workers s !! i = Some (Running p cwd))
     ∨ (is_Some (finished s !! p) ∧ (p ∉ yielded s)
        ∧ thread_of s p = Some (thread_name i))).

(** The table of worktrees serves a pool of [n] threads: one entry per
    thread name, with the lock of that thread. *)
Record serves (n : nat) (temp_dirs : TempDirs) : Prop := Serves {
  sv_thread : ∀ i, i < n → ∃ worktree branch,
    temp_dirs !! thread_name i = Some (worktree, branch, i);
  sv_key : ∀ t, is_Some (temp_dirs !! t) → ∃ i, i < n ∧ t = thread_name i
}.

(** Whoever is inside a worktree holds its lock, and is alone there. *)
Record exclusive (n : nat) (s : pool) : Prop := Exclusive {
  ex_workers : length (workers s) = n;
  ex_places : places s;
  ex_held : ∀ i p, inside s i p →
    i ∈ held (sto s) ∧ thread_of s p = Some (thread_name i);
  ex_alone : ∀ i p q, inside s i p → inside s i q → p = q
}.


(** The exceptions that end the interpreter with status 1: every exception
    but a [SystemExit] with another code. *)
Definition status_one (e : exn) : Prop := exit_status e = 1%Z.

(** Every exception met in the pool ends the interpreter with status 1. *)
Record ends_with_one (s : pool) : Prop := EndsWithOne {
  eo_leaving : ∀ e, leaving s = Some e → status_one e;
  eo_finished : ∀ p e, finished s !! p = Some (Raise e) → status_one e
}.
(** * Sample runs *)

(** The schedule in which worker 0 runs the packages one after the other
    and each one is merged as soon as it is done. *)
Definition round (p : nat) : list choice :=
  [Worker 0; Worker 0; Worker 0; Merge p].
Definition sequential (n : nat) : list choice :=
  replicate n Submit ++ flat_map round (seq 0 n).

(** Two Change Records, as an update script prints them. *)
Definition two_changes : json :=
  JArr [JObj [("attrPath", JStr "hello"); ("oldVersion", JStr "1.0");
              ("newVersion", JStr "1.1"); ("files", JArr [JStr "hello.nix"])];
        JObj [("attrPath", JStr "jq"); ("oldVersion", JStr "1.6");
              ("newVersion", JStr "1.7");
              ("files", JArr [JStr "jq.nix"; JStr "jq.patch"])]].

(** A world with the package file [packages.json], in which the operator
    presses Enter and the commands in [fails] exit with status 1.  The
    script [two] prints [two_changes], [garbage] prints what is not JSON,
    every other one prints the empty list. *)
Definition sample_world (packages : list package) (fails : list string → bool)
    : World := {|
  argv := ["update.py"; "packages.json"];
  stdin_line := Some "";
  read_packages := λ path,
    if bool_decide (path = "packages.json") then Some packages else None;
  tmp_root := "/tmp";
  tmp_name := λ i, "tmp" +:+ pretty i;
  process := λ _ args _,
    if fails args then ProcExit 1 "boom" ""
    else if bool_decide (args = ["two"]) then ProcExit 0 "two changes" ""
    else if bool_decide (args = ["garbage"]) then ProcExit 0 "garbage" ""
    else ProcExit 0 "[]" "";
  json_loads := λ captured,
    if bool_decide (captured = "[]") then Some (JArr [])
    else if bool_decide (captured = "two changes") then Some two_changes
    else None;
  decode_utf8 := Some;
  py_str := λ _, "" |}.

(** Only the update script [fail] fails. *)
Definition script_fails (args : list string) : bool :=
  bool_decide (args = ["fail"]).

(** In addition, [git worktree remove] fails. *)
Definition remove_fails (args : list string) : bool :=
  bool_decide (args = ["fail"])
  || bool_decide (take 3 args = ["git"; "worktree"; "remove"]).

Definition pkg_ok : package := Package "ok" "ok" ["ok"] [] None.
Definition pkg_fail : package := Package "bad" "bad" ["fail"] [] None.
Definition pkg_two : package := Package "two" "two" ["two"] ["commit"] None.
Definition pkg_garbage : package :=
  Package "garbage" "garbage" ["garbage"] ["commit"] None.
Definition pkg_fail_commit : package :=
  Package "worse" "worse" ["fail"] ["commit"] None.
(** * Reasoning about the monad *)

Lemma bind_unfold {A B} (m : M A) (k : A → M B) (s : store) :
  (m ≫= k) s = match m s with
               | (Ret a, s') => k a s'
               | (Raise e, s') => (Raise e, s')
               | (Block, s') => (Block, s')
               end.
Proof. reflexivity. Qed.

Section Obeys.
Context (P : event → Prop) (Q : exn → Prop).

Lemma obeys_ret {A} (a : A) : obeys P Q (mret a).
Proof.
  intros s r s' [= <- <-]. split; [|done].
  exists []. by rewrite app_nil_r.
Qed.

Lemma obeys_raise {A} (e : exn) : Q e → obeys P Q (raise e : M A).
Proof.
  intros He s r s' [= <- <-]. repeat split; try done.
  - exists []. by rewrite app_nil_r.
  - by intros ? [= <-].
Qed.

Lemma obeys_emit (e : event) : P e → obeys P Q (emit e).
Proof.
  intros He s r s' [= <- <-]. repeat split; try done.
  exists [e]. split; [done|]. by constructor.
Qed.

Lemma obeys_lift {A} (o : outcome A) :
  o ≠ Block → (∀ e, o = Raise e → Q e) → obeys P Q (lift o).
Proof.
  intros Hb He s r s' [= <- <-]. repeat split; try done.
  exists []. by rewrite app_nil_r.
Qed.

Lemma obeys_bind {A B} (m : M A) (k : A → M B) :
  obeys P Q m → (∀ a, obeys P Q (k a)) → obeys P Q (m ≫= k).
Proof.
  intros Hm Hk s r s'. rewrite bind_unfold.
  destruct (m s) as [o s1] eqn:E. destruct (Hm _ _ _ E) as ([n1 [T1 F1]] & H1 & B1 & R1).
  destruct o as [a|e|].
  - intros E2. destruct (Hk a _ _ _ E2) as ([n2 [T2 F2]] & H2 & B2 & R2).
    split_and!; [|congruence|done|done].
    exists (n1 ++ n2). rewrite T2, T1, app_assoc. split; [done|].
    by apply Forall_app.
  - intros [= <- <-]. split_and!; [by exists n1|done|done|]. intros ? [= <-]. by apply R1.
  - done.
Qed.

Lemma obeys_for_each {A} (l : list A) (body : A → M unit) :
  (∀ x, obeys P Q (body x)) → obeys P Q (for_each l body).
Proof.
  intros Hb. induction l as [|x l IH]; simpl.
  - apply obeys_ret.
  - apply obeys_bind; [apply Hb | intros _; apply IH].
Qed.

End Obeys.

Lemma obeys_wait_checked W P Q args piped cwd :
  (∀ c code o, Q (CalledProcessError c code o)) →
  obeys P Q (wait_checked W args piped cwd).
Proof.
  intros HQ s r s'. unfold wait_checked. case_bool_decide; intros [= <- <-].
  - repeat split; try done. exists []. by rewrite app_nil_r.
  - repeat split; try done.
    + exists []. by rewrite app_nil_r.
    + intros e [= <-]. apply HQ.
Qed.

Lemma obeys_subprocess_run W (P : event → Prop) Q site args piped cwd :
  P (site args cwd) → (∀ c code o, Q (CalledProcessError c code o)) →
  obeys P Q (subprocess_run W site args piped cwd).
Proof.
  intros HP HQ. unfold subprocess_run, popen.
  apply obeys_bind; [by apply obeys_emit|].
  intros _. by apply obeys_wait_checked.
Qed.

Lemma py_getitem_raises v k e : py_getitem v k = Raise e → failing e.
Proof.
  destruct v; simpl; try by intros [= <-].
  destruct (dict_get k members); by intros [= <-].
Qed.

Lemma py_getitem_not_block v k : py_getitem v k ≠ Block.
Proof. destruct v; simpl; try done. by destruct (dict_get k members). Qed.

Lemma format_field_raises W v k e : format_field W v k = Raise e → failing e.
Proof.
  unfold format_field. destruct (py_getitem v k) as [x|e'|] eqn:E; [|intros [= <-]|done].
  - by destruct x.
  - by eapply py_getitem_raises.
Qed.

Lemma format_field_not_block W v k : format_field W v k ≠ Block.
Proof.
  unfold format_field. pose proof (py_getitem_not_block v k).
  destruct (py_getitem v k) as [x| |]; [by destruct x|done|done].
Qed.

Lemma obeys_commit_changes W worktree branch execution :
  obeys is_git failing (commit_changes W worktree branch execution).
Proof.
  unfold commit_changes. destruct (stdout execution) as [captured|].
  2: { by apply obeys_raise. }
  destruct (json_loads W captured) as [changes|].
  2: { by apply obeys_raise. }
  apply obeys_bind.
  { apply obeys_lift; destruct changes; try done; by intros ? [= <-]. }
  intros items. apply obeys_for_each. intros c. unfold commit_change.
  apply obeys_bind.
  { apply obeys_lift; [apply py_getitem_not_block|apply py_getitem_raises]. }
  intros fs. apply obeys_bind.
  { apply obeys_lift; destruct fs; simpl; try done; try (by intros ? [= <-]);
      destruct (mapM as_str items0); try done; by intros ? [= <-]. }
  intros paths. apply obeys_bind; [by apply obeys_subprocess_run|].
  intros _. apply obeys_bind.
  { apply obeys_lift.
    - unfold commit_message.
      pose proof (format_field_not_block W c "attrPath").
      pose proof (format_field_not_block W c "oldVersion").
      pose proof (format_field_not_block W c "newVersion").
      repeat case_match; done.
    - intros e. unfold commit_message.
      pose proof (format_field_raises W c "attrPath").
      pose proof (format_field_raises W c "oldVersion").
      pose proof (format_field_raises W c "newVersion").
      repeat case_match; try done; intros [= <-]; eauto. }
  intros msg. apply obeys_bind; [by apply obeys_subprocess_run|].
  intros _. apply obeys_bind; [by apply obeys_subprocess_run|].
  intros _. apply obeys_ret.
Qed.

Lemma obeys_mono {A} (P P' : event → Prop) (Q Q' : exn → Prop) (m : M A) :
  (∀ e, P e → P' e) → (∀ e, Q e → Q' e) → obeys P Q m → obeys P' Q' m.
Proof.
  intros HP HQ Hm s r s' E. destruct (Hm _ _ _ E) as ([n [T F]] & H & B & R).
  split_and!; [|done|done|by eauto].
  exists n. split; [done|]. eapply Forall_impl; eauto.
Qed.

Lemma obeys_merge_except W (P : event → Prop) p output keep_going :
  (∀ line, P (Eprint line)) → (∀ file data, P (WriteLog file data)) →
  obeys P failing (merge_except W p output keep_going).
Proof.
  intros HE HW. unfold merge_except, eprint.
  repeat (apply obeys_bind; [by apply obeys_emit|intros _]).
  destruct output as [captured|]; [|by apply obeys_raise].
  destruct (decode_utf8 W captured); [|by apply obeys_raise].
  repeat (apply obeys_bind; [by apply obeys_emit|intros _]).
  destruct keep_going; [apply obeys_ret|by apply obeys_raise].
Qed.

(** ** One package: commit_changes and merge_changes *)

Lemma subprocess_run_git_ok W args cwd s :
  git_succeeds W →
  subprocess_run W Git ("git" :: args) false cwd s
  = (Ret (Completed 0 None None), Store (trace s ++ [Git ("git" :: args) cwd]) (held s)).
Proof.
  intros Hg. unfold subprocess_run, popen. rewrite bind_unfold. simpl.
  unfold wait_checked. simpl. by rewrite Hg.
Qed.

Lemma as_change_files v c :
  as_change v = Some c →
  ∃ fs, py_getitem v "files" = Ret (JArr fs) ∧ mapM as_str fs = Some (files c).
Proof.
  unfold as_change. intros H.
  repeat case_match; try done.
  eexists. split; [done|].
  destruct (mapM as_str items) as [l|]; simpl in H; [|done].
  by injection H as <-.
Qed.

Lemma as_change_message W v c :
  as_change v = Some c → commit_message W v = Ret (message_of c).
Proof.
  unfold as_change, commit_message, format_field, message_of. intros H.
  repeat case_match; try done; simplify_eq/=.
  all: destruct (mapM as_str _); simplify_eq/=; done.
Qed.

Lemma commit_change_ok W worktree branch v c s :
  git_succeeds W → as_change v = Some c →
  commit_change W worktree branch v s
  = (Ret (), Store (trace s ++ change_events worktree branch c) (held s)).
Proof.
  intros Hg Hc. unfold commit_change.
  destruct (as_change_files _ _ Hc) as (fs & Hf & Hm).
  rewrite bind_unfold. unfold lift at 1. rewrite Hf.
  rewrite bind_unfold. unfold lift at 1. simpl py_str_list. rewrite Hm.
  rewrite bind_unfold. change (["git"; "add"] ++ files c) with ("git" :: "add" :: files c).
  rewrite subprocess_run_git_ok by done.
  rewrite bind_unfold. unfold lift at 1. rewrite (as_change_message W _ _ Hc).
  rewrite bind_unfold, subprocess_run_git_ok by done.
  rewrite bind_unfold, subprocess_run_git_ok by done.
  simpl. unfold change_events, git_add, git_commit, git_cherry_pick.
  by rewrite <- !app_assoc.
Qed.

Lemma for_each_commit_change_ok W worktree branch items cs s :
  git_succeeds W → mapM as_change items = Some cs →
  for_each items (commit_change W worktree branch) s
  = (Ret (), Store (trace s ++ flat_map (change_events worktree branch) cs) (held s)).
Proof.
  intros Hg. revert cs s. induction items as [|v items IH]; intros cs s Hm.
  - simpl in Hm. injection Hm as <-. simpl. rewrite app_nil_r. by destruct s.
  - rewrite mapM_Some in Hm. apply Forall2_cons_inv_l in Hm as (c & cs' & Hc & Hcs & ->).
    apply mapM_Some in Hcs.
    simpl for_each. rewrite bind_unfold, (commit_change_ok _ _ _ _ c) by done.
    rewrite (IH cs') by done. simpl. by rewrite <- app_assoc.
Qed.

Lemma commit_changes_ok W worktree branch captured e items cs s :
  git_succeeds W →
  json_loads W captured = Some (JArr items) →
  mapM as_change items = Some cs →
  commit_changes W worktree branch (Completed 0 (Some captured) e) s
  = (Ret (), Store (trace s ++ flat_map (change_events worktree branch) cs) (held s)).
Proof.
  intros Hg Hj Hm. unfold commit_changes. simpl. rewrite Hj.
  rewrite bind_unfold. simpl. by apply for_each_commit_change_ok.
Qed.

(** What handling a successful commit-capable package shows: the record
    events, the report and the release of the lock. *)
Lemma merge_changes_ok W p t worktree branch l captured e items cs keep_going
    (temp_dirs : TempDirs) s :
  supports_commit true p = true →
  thread p = Some t →
  temp_dirs !! t = Some (worktree, branch, l) →
  l ∈ held s →
  git_succeeds W →
  json_loads W captured = Some (JArr items) →
  mapM as_change items = Some cs →
  merge_changes W p (Ret (Completed 0 (Some captured) e)) true keep_going temp_dirs s
  = (Ret (),
     Store (trace s ++ flat_map (change_events worktree branch) cs
              ++ [Eprint (" - " +:+ name p +:+ ": DONE."); Release l])
           (held s ∖ {[l]})).
Proof.
  intros Hp Ht Htd Hl Hg Hj Hm. unfold merge_changes, merge_try.
  rewrite Hp, Ht, Htd. rewrite bind_unfold.
  rewrite (commit_changes_ok _ _ _ _ _ items cs) by done.
  simpl. unfold merge_finally. rewrite Hp. unfold lock_release. simpl.
  rewrite bool_decide_eq_true_2 by done. simpl.
  by rewrite <- !app_assoc.
Qed.

(** X1.  The lock is released, as the last thing, whenever the update itself
    succeeded, whatever happens while merging. *)
Lemma merge_changes_releases W p t worktree branch l execution keep_going
    (temp_dirs : TempDirs) s :
  supports_commit true p = true →
  thread p = Some t →
  temp_dirs !! t = Some (worktree, branch, l) →
  l ∈ held s →
  ∃ r new,
    merge_changes W p (Ret execution) true keep_going temp_dirs s
    = (r, Store (trace s ++ new ++ [Release l]) (held s ∖ {[l]}))
    ∧ Forall (λ e, ¬ is_lock_event e) new.
Proof.
  intros Hp Ht Htd Hl. unfold merge_changes, merge_try.
  rewrite Hp, Ht, Htd.
  destruct ((commit_changes W worktree branch execution ;;
             eprint (" - " +:+ name p +:+ ": DONE.")) s) as [r s1] eqn:E.
  assert (obeys (λ e, ¬ is_lock_event e) failing
            (commit_changes W worktree branch execution ;;
             eprint (" - " +:+ name p +:+ ": DONE."))) as Hob.
  { apply obeys_bind.
    - eapply obeys_mono; [| |apply obeys_commit_changes]; [|done].
      intros []; simpl; tauto.
    - intros _. apply obeys_emit. by intros []. }
  destruct (Hob _ _ _ E) as ([n1 [T1 F1]] & H1 & _ & _).
  assert (∃ r' s2 n2, (match r with
            | Raise (CalledProcessError _ _ output) =>
                merge_except W p output keep_going s1
            | _ => (r, s1)
            end) = (r', s2) ∧ trace s2 = trace s1 ++ n2
            ∧ Forall (λ e, ¬ is_lock_event e) n2 ∧ held s2 = held s1)
    as (r' & s2 & n2 & -> & T2 & F2 & H2).
  { destruct r as [[]|e0|].
    2: destruct e0.
    2: { destruct (merge_except W p output keep_going s1) as [r' s2] eqn:E2.
         destruct (obeys_merge_except W (λ e, ¬ is_lock_event e) _ _ _
                     ltac:(by intros ? []) ltac:(by intros ? ? []) _ _ _ E2)
           as ([n2 [T2 F2]] & H2 & _).
         by exists r', s2, n2. }
    all: eexists _, s1, []; by rewrite app_nil_r. }
  unfold merge_finally. rewrite Hp. unfold lock_release.
  rewrite bool_decide_eq_true_2 by congruence.
  exists r', (n1 ++ n2). split.
  - f_equal. f_equal; [|congruence]. rewrite T2, T1. by rewrite <- !app_assoc.
  - by apply Forall_app.
Qed.

(** ** Claims about the handling of one package *)

(** C1 (as the code behaves).  The claim asks that the
    Workspace Guard be released exactly once, as the last step, under every
    outcome.  When the update script of a commit-capable package exits
    non-zero in a commit-enabled run, [future.result()] raises before line 58
    binds [lock]; the [finally] block then fails with [UnboundLocalError],
    which also replaces the [SystemExit] of a run without keep-going.  The
    lock stays held and no release is ever recorded. *)
Theorem failed_update_never_releases W p cmd code output keep_going
    (temp_dirs : TempDirs) s :
  supports_commit true p = true →
  ∃ new,
    merge_changes W p (Raise (CalledProcessError cmd code output)) true
      keep_going temp_dirs s
    = (Raise (UnboundLocalError "lock"), Store (trace s ++ new) (held s))
    ∧ Forall (λ e, ¬ is_lock_event e) new.
Proof.
  intros Hp. unfold merge_changes, merge_try.
  destruct (merge_except W p output keep_going s) as [r s1] eqn:E.
  destruct (obeys_merge_except W (λ e, ¬ is_lock_event e) _ _ _
              ltac:(by intros ? []) ltac:(by intros ? ? []) _ _ _ E)
    as ([new [T F]] & H & _).
  unfold merge_finally. rewrite Hp.
  exists new. split; [|done].
  f_equal. destruct s1; simpl in *. congruence.
Qed.

Lemma failed_update_never_releases_witness :
  ∃ new,
    merge_changes (sample_world [] script_fails) pkg_fail_commit
      (Raise (CalledProcessError ["fail"] 1 (Some "boom"))) true true
      {[ thread_name 0 := ("/tmp/tmp0/nixpkgs", "update-tmp0", 0) ]}
      (Store [Acquire 0] {[0]})
    = (Raise (UnboundLocalError "lock"), Store ([Acquire 0] ++ new) {[0]})
    ∧ Forall (λ e, ¬ is_lock_event e) new.
Proof.
  refine (failed_update_never_releases (sample_world [] script_fails)
           pkg_fail_commit ["fail"] 1 (Some "boom") true
           {[ thread_name 0 := ("/tmp/tmp0/nixpkgs", "update-tmp0", 0) ]}
           (Store [Acquire 0] {[0]}) _).
  reflexivity.
Defined.

(** The same in a whole run, keep-going on, one worker: the run ends on the
    uncaught [UnboundLocalError] with status 1, lock 0 still held, and the
    package that ran afterwards is never merged. *)
Lemma failed_commit_package_ends_the_run :
  ended (main (sample_world [pkg_fail_commit; pkg_ok] script_fails) 1 true true
           [] (sequential 2) (Store [] ∅)) = Some (UnboundLocalError "lock")
  ∧ held (final (main (sample_world [pkg_fail_commit; pkg_ok] script_fails) 1
                   true true [] (sequential 2) (Store [] ∅))) = {[0]}
  ∧ script (sample_world [pkg_fail_commit; pkg_ok] script_fails) 1 true true []
      (sequential 2)
    = Some (Exit
        [Eprint "";
         Eprint "Going to be running update for following packages:";
         Eprint " - worse"; Eprint " - ok"; Eprint "";
         Prompt "Press Enter key to continue...";
         Eprint ""; Eprint "Running update for:";
         MkTemp "/tmp/tmp0";
         Git ["git"; "worktree"; "add"; "-b"; "update-tmp0"; "/tmp/tmp0/nixpkgs"]
             None;
         Acquire 0; Eprint " - worse: UPDATING ...";
         UpdateScript ["fail"] (Some "/tmp/tmp0/nixpkgs");
         Eprint " - worse: ERROR"; Eprint "";
         Eprint "--- SHOWING ERROR LOG FOR worse ----------------------";
         Eprint ""; Eprint "boom"; WriteLog "worse.log" "boom";
         Eprint "";
         Eprint "--- SHOWING ERROR LOG FOR worse ----------------------";
         Eprint " - ok: UPDATING ..."; UpdateScript ["ok"] None;
         RmTemp "/tmp/tmp0"]
        1 []).
Proof. split_and!; vm_compute; reflexivity. Qed.

(** C3, counterexample.  With two Change Records the first commit is
    cherry-picked (event 2) before the second record is committed
    (event 4): integration does not wait for all records. *)
Lemma cherry_pick_precedes_second_commit :
  commit_changes (sample_world [] script_fails) "/wt" "update-x"
    (Completed 0 (Some "two changes") (Some "")) (Store [] ∅)
  = (Ret (),
     Store [Git ["git"; "add"; "hello.nix"] (Some "/wt");
            Git ["git"; "commit"; "-m"; "hello: 1.0 → 1.1"] (Some "/wt");
            Git ["git"; "cherry-pick"; "update-x"] None;
            Git ["git"; "add"; "jq.nix"; "jq.patch"] (Some "/wt");
            Git ["git"; "commit"; "-m"; "jq: 1.6 → 1.7"] (Some "/wt");
            Git ["git"; "cherry-pick"; "update-x"] None] ∅).
Proof. vm_compute. reflexivity. Qed.

(** C3, amended.  For a successful commit-capable package the records are
    handled one at a time, in their order: the files of a record are staged
    and committed in the worktree, and the branch of the worktree, whose tip
    is that commit, is cherry-picked in the directory the run was started in,
    before the next record is looked at.  The report and the release of the
    lock follow the last cherry-pick. *)
Theorem records_are_committed_and_picked_in_turn W p t worktree branch l
    captured e items cs keep_going (temp_dirs : TempDirs) s :
  supports_commit true p = true →
  thread p = Some t →
  temp_dirs !! t = Some (worktree, branch, l) →
  l ∈ held s →
  git_succeeds W →
  json_loads W captured = Some (JArr items) →
  mapM as_change items = Some cs →
  merge_changes W p (Ret (Completed 0 (Some captured) e)) true keep_going temp_dirs s
  = (Ret (),
     Store (trace s ++ flat_map (change_events worktree branch) cs
              ++ [Eprint (" - " +:+ name p +:+ ": DONE."); Release l])
           (held s ∖ {[l]})).
Proof. apply merge_changes_ok. Qed.

Lemma sample_git_succeeds packages : git_succeeds (sample_world packages script_fails).
Proof. intros h args cwd. reflexivity. Qed.

Lemma records_are_committed_and_picked_in_turn_witness :
  merge_changes (sample_world [] script_fails)
    (set_thread pkg_two (thread_name 0))
    (Ret (Completed 0 (Some "two changes") (Some ""))) true false
    {[ thread_name 0 := ("/wt", "update-x", 0) ]} (Store [Acquire 0] {[0]})
  = (Ret (),
     Store ([Acquire 0]
              ++ flat_map (change_events "/wt" "update-x")
                   [Change "hello" "1.0" "1.1" ["hello.nix"];
                    Change "jq" "1.6" "1.7" ["jq.nix"; "jq.patch"]]
              ++ [Eprint (" - " +:+ "two" +:+ ": DONE."); Release 0])
           ({[0]} ∖ {[0]})).
Proof.
  refine (records_are_committed_and_picked_in_turn
           (sample_world [] script_fails) (set_thread pkg_two (thread_name 0))
           (thread_name 0) "/wt" "update-x" 0 "two changes" (Some "")
           [JObj [("attrPath", JStr "hello"); ("oldVersion", JStr "1.0");
                  ("newVersion", JStr "1.1"); ("files", JArr [JStr "hello.nix"])];
            JObj [("attrPath", JStr "jq"); ("oldVersion", JStr "1.6");
                  ("newVersion", JStr "1.7");
                  ("files", JArr [JStr "jq.nix"; JStr "jq.patch"])]]
           _ false _ (Store [Acquire 0] {[0]}) _ _ _ _ _ _ _).
  - reflexivity.
  - reflexivity.
  - reflexivity.
  - vm_compute. reflexivity.
  - apply sample_git_succeeds.
  - reflexivity.
  - reflexivity.
Defined.




Lemma filter_change_events worktree branch cs :
  List.filter (is_commit_in worktree) (flat_map (change_events worktree branch) cs)
  = git_commit worktree <$> cs.
Proof.
  induction cs as [|c cs IH]; [done|].
  simpl. rewrite bool_decide_eq_true_2 by done. by rewrite IH.
Qed.

(** C7.  For a successful commit-capable package, the [git commit] calls
    made in its worktree are, in order, one per Change Record parsed from
    the captured output, each with the message
    [<attrPath>: <oldVersion> → <newVersion>] of its record; so there are as
    many commits as records. *)
Theorem one_commit_per_change_record W p t worktree branch l captured e items
    cs keep_going (temp_dirs : TempDirs) s :
  supports_commit true p = true →
  thread p = Some t →
  temp_dirs !! t = Some (worktree, branch, l) →
  l ∈ held s →
  git_succeeds W →
  json_loads W captured = Some (JArr items) →
  mapM as_change items = Some cs →
  ∃ new,
    merge_changes W p (Ret (Completed 0 (Some captured) e)) true keep_going
      temp_dirs s
    = (Ret (), Store (trace s ++ new) (held s ∖ {[l]}))
    ∧ List.filter (is_commit_in worktree) new
      = (λ c, Git ["git"; "commit"; "-m";
                   attrPath c +:+ ": " +:+ oldVersion c +:+ " → " +:+ newVersion c]
                  (Some worktree)) <$> cs
    ∧ length (List.filter (is_commit_in worktree) new) = length cs.
Proof.
  intros Hp Ht Htd Hl Hg Hj Hm.
  eexists. split; [by eapply merge_changes_ok|].
  rewrite List.filter_app, filter_change_events. simpl. rewrite app_nil_r.
  split; [done|]. by rewrite length_fmap.
Qed.

Lemma one_commit_per_change_record_witness :
  ∃ new,
    merge_changes (sample_world [] script_fails)
      (set_thread pkg_two (thread_name 0))
      (Ret (Completed 0 (Some "two changes") (Some ""))) true false
      {[ thread_name 0 := ("/wt", "update-x", 0) ]} (Store [Acquire 0] {[0]})
    = (Ret (), Store ([Acquire 0] ++ new) ({[0]} ∖ {[0]}))
    ∧ List.filter (is_commit_in "/wt") new
      = [Git ["git"; "commit"; "-m"; "hello: 1.0 → 1.1"] (Some "/wt");
         Git ["git"; "commit"; "-m"; "jq: 1.6 → 1.7"] (Some "/wt")]
    ∧ length (List.filter (is_commit_in "/wt") new) = 2.
Proof.
  refine (one_commit_per_change_record
           (sample_world [] script_fails) (set_thread pkg_two (thread_name 0))
           (thread_name 0) "/wt" "update-x" 0 "two changes" (Some "")
           [JObj [("attrPath", JStr "hello"); ("oldVersion", JStr "1.0");
                  ("newVersion", JStr "1.1"); ("files", JArr [JStr "hello.nix"])];
            JObj [("attrPath", JStr "jq"); ("oldVersion", JStr "1.6");
                  ("newVersion", JStr "1.7");
                  ("files", JArr [JStr "jq.nix"; JStr "jq.patch"])]]
           [Change "hello" "1.0" "1.1" ["hello.nix"];
            Change "jq" "1.6" "1.7" ["jq.nix"; "jq.patch"]]
           false _ (Store [Acquire 0] {[0]}) _ _ _ _ _ _ _).
  - reflexivity.
  - reflexivity.
  - reflexivity.
  - vm_compute. reflexivity.
  - apply sample_git_succeeds.
  - reflexivity.
  - reflexivity.
Defined.

(** ** The beginning and the end of main *)

Lemma for_each_eprint {A} (f : A → string) (l : list A) s :
  for_each l (λ x, eprint (f x)) s
  = (Ret (), Store (trace s ++ ((λ x, Eprint (f x)) <$> l)) (held s)).
Proof.
  revert s. induction l as [|x l IH]; intros s; simpl.
  - rewrite app_nil_r. by destruct s.
  - rewrite bind_unfold. simpl. rewrite IH. simpl. by rewrite <- app_assoc.
Qed.

(** Up to the prompt [main] depends on the world only. *)
Lemma main_prelude_read W packages path loaded line s :
  argv W !! 1 = Some path →
  read_packages W path = Some loaded →
  stdin_line W = Some line →
  main_prelude W packages s
  = if bool_decide (line = "")
    then (Ret loaded,
          Store (trace s ++ announcement loaded
                   ++ [Eprint ""; Eprint "Running update for:"]) (held s))
    else (Raise (SystemExit (Some 130%Z)),
          Store (trace s ++ announcement loaded ++ [Eprint "Aborting!"]) (held s)).
Proof.
  intros Ha Hr Hl. unfold main_prelude. rewrite Ha.
  rewrite bind_unfold. cbn [mret M_ret]. rewrite Hr.
  rewrite bind_unfold. cbn [mret M_ret].
  rewrite bind_unfold. cbn [eprint emit].
  rewrite bind_unfold. cbn [eprint emit].
  rewrite bind_unfold, for_each_eprint.
  rewrite bind_unfold. cbn [eprint emit].
  unfold input. rewrite !bind_unfold. cbn [emit]. rewrite Hl. cbn [mret M_ret].
  unfold announcement.
  case_bool_decide;
    repeat (rewrite bind_unfold; cbn [eprint emit mret M_ret raise trace held]);
    cbn [eprint emit mret M_ret raise trace held];
    rewrite <- ?app_assoc; simpl; by rewrite <- ?app_assoc.
Qed.

Lemma obeys_main_prelude W packages :
  obeys without_workspace failing (main_prelude W packages).
Proof.
  unfold main_prelude, input, eprint.
  apply obeys_bind.
  { destruct (argv W !! 1); [apply obeys_ret|by apply obeys_raise]. }
  intros path. apply obeys_bind.
  { destruct (read_packages W path); [apply obeys_ret|by apply obeys_raise]. }
  intros loaded.
  repeat (apply obeys_bind; [by apply obeys_emit|intros _]).
  apply obeys_bind.
  { apply obeys_for_each. intros p. by apply obeys_emit. }
  intros _.
  repeat (apply obeys_bind; [by apply obeys_emit|intros _]).
  apply obeys_bind.
  { apply obeys_bind; [by apply obeys_emit|intros _].
    destruct (stdin_line W); [apply obeys_ret|by apply obeys_raise]. }
  intros confirm. case_bool_decide.
  - repeat (apply obeys_bind; [by apply obeys_emit|intros _]). apply obeys_ret.
  - repeat (apply obeys_bind; [by apply obeys_emit|intros _]). by apply obeys_raise.
Qed.

Lemma main_epilogue_exits s :
  main_epilogue s
  = (Raise (SystemExit None),
     Store (trace s ++ [Eprint ""; Eprint "Packages updated!"]) (held s)).
Proof.
  unfold main_epilogue, eprint, emit, raise. rewrite !bind_unfold. cbn [trace held].
  by rewrite <- app_assoc.
Qed.

(** C9.  [main] never looks at the package list it is given: it gives the
    same run for any two values of the parameter, and the list it processes
    is the one read from the file named by [sys.argv[1]]. *)
Theorem main_ignores_its_package_list W max_workers keep_going commit
    (packages other : list package) sched s :
  main W max_workers keep_going commit packages sched s
  = main W max_workers keep_going commit other sched s
  ∧ ∀ path loaded,
      argv W !! 1 = Some path →
      read_packages W path = Some loaded →
      stdin_line W = Some "" →
      main W max_workers keep_going commit packages sched s
      = main_block W max_workers keep_going commit loaded sched
          (Store (trace s ++ announcement loaded
                    ++ [Eprint ""; Eprint "Running update for:"]) (held s)).
Proof.
  split; [reflexivity|].
  intros path loaded Ha Hr Hl. unfold main.
  by rewrite (main_prelude_read W packages path loaded "" s Ha Hr Hl).
Qed.

Lemma main_ignores_its_package_list_witness :
  [pkg_fail] ≠ [pkg_ok]
  ∧ main (sample_world [pkg_ok] script_fails) 1 false false [pkg_fail]
      (sequential 1) (Store [] ∅)
    = main_block (sample_world [pkg_ok] script_fails) 1 false false [pkg_ok]
        (sequential 1)
        (Store ([] ++ announcement [pkg_ok]
                  ++ [Eprint ""; Eprint "Running update for:"]) ∅).
Proof.
  split; [discriminate|].
  refine (proj2 (main_ignores_its_package_list
                   (sample_world [pkg_ok] script_fails) 1 false false
                   [pkg_fail] [] (sequential 1) (Store [] ∅))
                "packages.json" [pkg_ok] _ _ _); reflexivity.
Defined.

(** C10.  At the prompt the empty line alone lets the run go on to the
    [with] block.  After any other line the run shows only the announcement
    and the notice [Aborting!], creates no worktree, dispatches no package,
    and the process exits with status 130. *)
Theorem only_the_empty_line_proceeds W max_workers keep_going commit packages
    sched path loaded line :
  argv W !! 1 = Some path →
  read_packages W path = Some loaded →
  stdin_line W = Some line →
  (line = "" →
     main W max_workers keep_going commit packages sched (Store [] ∅)
     = main_block W max_workers keep_going commit loaded sched
         (Store (announcement loaded ++ [Eprint ""; Eprint "Running update for:"])
                ∅))
  ∧ (line ≠ "" →
     main W max_workers keep_going commit packages sched (Store [] ∅)
     = Run (Store (announcement loaded ++ [Eprint "Aborting!"]) ∅)
           (Some (SystemExit (Some 130%Z))) ∅ None
     ∧ script W max_workers keep_going commit packages sched
       = Some (Exit (announcement loaded ++ [Eprint "Aborting!"]) 130 [])).
Proof.
  intros Ha Hr Hl.
  pose proof (main_prelude_read W packages path loaded line (Store [] ∅) Ha Hr Hl)
    as Hp.
  split; intros Hline.
  - unfold main. rewrite Hp. by rewrite bool_decide_eq_true_2.
  - assert (main W max_workers keep_going commit packages sched (Store [] ∅)
            = Run (Store (announcement loaded ++ [Eprint "Aborting!"]) ∅)
                  (Some (SystemExit (Some 130%Z))) ∅ None) as Hm.
    { unfold main. rewrite Hp. by rewrite bool_decide_eq_false_2. }
    split; [done|]. unfold script. by rewrite Hm.
Qed.

Lemma only_the_empty_line_proceeds_witness :
  let W := {| argv := ["update.py"; "packages.json"];
              stdin_line := Some "no";
              read_packages := λ _, Some [pkg_ok];
              tmp_root := "/tmp"; tmp_name := pretty;
              process := λ _ _ _, ProcExit 0 "[]" "";
              json_loads := λ _, Some (JArr []);
              decode_utf8 := Some; py_str := λ _, "" |} in
  script W 4 false true [] (sequential 1)
  = Some (Exit (announcement [pkg_ok] ++ [Eprint "Aborting!"]) 130 []).
Proof.
  intros W.
  refine (proj2 (proj2 (only_the_empty_line_proceeds W 4 false true []
                          (sequential 1) "packages.json" [pkg_ok] "no" _ _ _)
                       _)).
  - reflexivity.
  - reflexivity.
  - reflexivity.
  - discriminate.
Defined.

(** ** The thread pool *)

(** The two moves of a worker that has taken a package make up
    [run_update_script]: the future gets what the function returns or
    raises. *)
Lemma run_update_script_split W t p commit (temp_dirs : TempDirs) s :
  run_update_script W t p commit temp_dirs s
  = match start_script t p commit temp_dirs s with
    | (Ret (p', cwd), s1) =>
        match wait_checked W (updateScript p) true cwd s1 with
        | (Ret c, s2) => (Ret (p', c), s2)
        | (Raise e, s2) => (Raise e, s2)
        | (Block, s2) => (Block, s2)
        end
    | (Raise e, s1) => (Raise e, s1)
    | (Block, s1) => (Block, s1)
    end.
Proof.
  unfold run_update_script, start_script, subprocess_run.
  rewrite !bind_unfold.
  destruct (run_update_script_begin t p commit temp_dirs s)
    as [[[p' worktree]|e|] s1]; [|done|done].
  rewrite !bind_unfold. unfold popen, emit. cbn [mret M_ret].
  by destruct (wait_checked W (updateScript p) true worktree _) as [[c|e|] s2].
Qed.

Lemma step_transition W commit keep_going (temp_dirs : TempDirs) c s s' :
  step W commit keep_going temp_dirs c s = Some s' →
  transition W commit keep_going temp_dirs s s'.
Proof.
  destruct c as [|i|p]; simpl.
  - unfold step_submit. case_bool_decide as H; [|done].
    destruct H as [H1 H2]. intros [= <-]. by constructor.
  - unfold step_worker.
    destruct (workers s !! i) as [[|p|p cwd]|] eqn:Hw; [| | |done].
    + destruct (queue s) as [|p rest] eqn:Hq; [done|].
      intros [= <-]. by econstructor.
    + destruct (pkgs s !! p) as [pk|] eqn:Hp; [|done].
      destruct (start_script (thread_name i) pk commit temp_dirs (sto s))
        as [[[pk' cwd]|e|] st] eqn:E; [| |done].
      * intros [= <-]. by econstructor.
      * intros [= <-]. by econstructor.
    + destruct (pkgs s !! p) as [pk|] eqn:Hp; [|done].
      destruct (wait_checked W (updateScript pk) true cwd (sto s)) as [r st] eqn:E.
      intros [= <-]. by econstructor.
  - unfold step_merge. case_bool_decide as H; [|done].
    destruct H as (H1 & H2 & H3).
    destruct (finished s !! p) as [future|] eqn:Hf; [|done].
    destruct (pkgs s !! p) as [pk|] eqn:Hp; [|done].
    destruct (merge_changes W pk future commit keep_going temp_dirs (sto s))
      as [[[]|e|] st] eqn:E; [| |done].
    + intros [= <-].
      by apply (t_merge W commit keep_going temp_dirs s p future pk (Ret ()) st).
    + intros [= <-].
      by apply (t_merge W commit keep_going temp_dirs s p future pk (Raise e) st).
Qed.

(** An invariant of the moves holds along every schedule. *)
Lemma exec_invariant W commit keep_going (temp_dirs : TempDirs)
    (I : pool → Prop) :
  (∀ s s', I s → transition W commit keep_going temp_dirs s s' → I s') →
  ∀ sched s, I s → I (exec W commit keep_going temp_dirs sched s).
Proof.
  intros Hstep sched. induction sched as [|c sched IH]; intros s Hs; [done|].
  simpl. apply IH.
  destruct (step W commit keep_going temp_dirs c s) as [s'|] eqn:E; [|done].
  simpl. eapply Hstep; [done|]. by eapply step_transition.
Qed.

Lemma exec_app W commit keep_going (temp_dirs : TempDirs) a b s :
  exec W commit keep_going temp_dirs (a ++ b) s
  = exec W commit keep_going temp_dirs b (exec W commit keep_going temp_dirs a s).
Proof. revert s. induction a as [|c a IH]; intros s; [done|]. simpl. apply IH. Qed.

Lemma start_script_no_commit t pk (temp_dirs : TempDirs) s :
  start_script t pk false temp_dirs s
  = (Ret (pk, None),
     Store (trace s ++ [Eprint (" - " +:+ name pk +:+ ": UPDATING ...");
                        UpdateScript (updateScript pk) None]) (held s)).
Proof.
  unfold start_script, run_update_script_begin, popen, eprint, emit.
  cbn [supports_commit andb].
  repeat (rewrite bind_unfold; cbn [mret M_ret trace held]).
  by rewrite <- app_assoc.
Qed.

Lemma wait_checked_store W args piped cwd s r s' :
  wait_checked W args piped cwd s = (r, s') → s' = s.
Proof. unfold wait_checked. case_bool_decide; by intros [= <- <-]. Qed.

(** Without commit integration [merge_changes] only reports. *)
Lemma merge_changes_no_commit W p future keep_going (temp_dirs : TempDirs) s r s' :
  merge_changes W p future false keep_going temp_dirs s = (r, s') →
  (∃ new, trace s' = trace s ++ new ∧ Forall without_workspace new)
  ∧ held s' = held s.
Proof.
  unfold merge_changes, merge_try, merge_finally. cbn [supports_commit andb].
  destruct future as [execution|e|].
  - cbn. intros [= <- <-]. split; [|done]. eexists. split; [done|].
    by repeat constructor.
  - destruct e; try (intros [= <- <-]; split; [|done]; exists [];
                     by rewrite app_nil_r).
    destruct (merge_except W p output keep_going s) as [r1 s1] eqn:E.
    destruct (obeys_merge_except W without_workspace _ _ _
                ltac:(done) ltac:(done) _ _ _ E) as (H1 & H2 & _).
    by intros [= <- <-].
  - intros [= <- <-]. split; [|done]. exists []. by rewrite app_nil_r.
Qed.

Lemma transition_no_commit W keep_going (temp_dirs : TempDirs) s s' :
  transition W false keep_going temp_dirs s s' →
  Forall without_workspace (trace (sto s)) →
  Forall without_workspace (trace (sto s')).
Proof.
  intros Ht Hs. destruct Ht; simpl; try done;
    repeat match goal with
    | H : start_script _ _ false _ _ = _ |- _ =>
        rewrite start_script_no_commit in H; simplify_eq
    | H : wait_checked _ _ _ _ _ = _ |- _ =>
        apply wait_checked_store in H; subst
    | H : merge_changes _ _ _ false _ _ _ = _ |- _ =>
        apply merge_changes_no_commit in H as [[new [-> F]] _]
    end; simpl; try done.
  - apply Forall_app. split; [done|]. by repeat constructor.
  - by apply Forall_app.
Qed.

Lemma exec_no_commit W keep_going (temp_dirs : TempDirs) sched s :
  Forall without_workspace (trace (sto s)) →
  Forall without_workspace
    (trace (sto (exec W false keep_going temp_dirs sched s))).
Proof.
  apply (exec_invariant W false keep_going temp_dirs
           (λ s, Forall without_workspace (trace (sto s)))).
  intros s1 s2 H1 Ht. by eapply transition_no_commit.
Qed.

Lemma main_block_no_commit W max_workers keep_going packages sched s :
  Forall without_workspace (trace s) →
  worktrees (main_block W max_workers keep_going false packages sched s) = ∅
  ∧ Forall without_workspace
      (trace (final (main_block W max_workers keep_going false packages sched s))).
Proof.
  intros Hs. unfold main_block. case_bool_decide; [done|].
  pose proof (exec_no_commit W keep_going ∅ sched
                (pool_init s packages (Z.to_nat max_workers)) Hs) as He.
  destruct (pool_done _) as [pending|]; [|done].
  cbn [exit_stack]. destruct pending as [e|]; [done|].
  rewrite main_epilogue_exits. simpl. split; [done|].
  apply Forall_app. split; [done|]. by repeat constructor.
Qed.

(** C8.  With commit integration disabled, whatever the package list, the
    size of the pool and the schedule, and at every point of the run, the
    table of worktrees is empty and everything the run has done is to print,
    prompt, write log files and start update scripts in the default
    directory: no [git] command, no temporary directory, no lock. *)
Theorem no_workspace_without_commit W max_workers keep_going packages sched :
  worktrees (main W max_workers keep_going false packages sched (Store [] ∅)) = ∅
  ∧ Forall without_workspace
      (trace (final (main W max_workers keep_going false packages sched
                       (Store [] ∅)))).
Proof.
  unfold main.
  destruct (main_prelude W packages (Store [] ∅)) as [r s] eqn:E.
  destruct (obeys_main_prelude W packages _ _ _ E) as ([new [T F]] & _).
  simpl in T. rewrite <- T in F.
  destruct r as [loaded|e|]; [|done|done].
  by apply main_block_no_commit.
Qed.

(** ** Keep-going runs without commit integration *)

Lemma merge_changes_keep_going W p future (temp_dirs : TempDirs) s :
  decodes W → plain_future future →
  ∃ s', merge_changes W p future false true temp_dirs s = (Ret (), s').
Proof.
  intros Hd Hf. unfold merge_changes, merge_try, merge_finally.
  cbn [supports_commit andb].
  destruct future as [execution|e|]; [by eexists| |done].
  destruct e as [cmd code [captured|]| | | | | | | | | | | |]; try done.
  destruct (Hd captured) as [text Ht].
  unfold merge_except. rewrite Ht.
  unfold eprint, emit. repeat (rewrite bind_unfold; cbn [mret M_ret]).
  by eexists.
Qed.

Lemma wait_checked_plain W args cwd s r s' :
  wait_checked W args true cwd s = (r, s') → plain_future r.
Proof. unfold wait_checked. case_bool_decide; by intros [= <- <-]. Qed.

Lemma transition_keeps_going W (temp_dirs : TempDirs) n s s' :
  decodes W →
  keeps_going n s → transition W false true temp_dirs s s' → keeps_going n s'.
Proof.
  intros Hd [Hlen Hleave Hfin Hyield] Ht.
  destruct Ht; split; simpl; try done;
    repeat match goal with
    | H : start_script _ _ false _ _ = _ |- _ =>
        rewrite start_script_no_commit in H; simplify_eq
    end; try done.
  - by rewrite length_insert.
  - intros q f. destruct (decide (p = q)) as [->|Hne].
    + rewrite lookup_insert_eq. intros [= <-]. by eapply wait_checked_plain.
    + rewrite lookup_insert_ne by done. apply Hfin.
  - intros q Hq. destruct (decide (p = q)) as [->|Hne].
    + rewrite lookup_insert_eq. by eexists.
    + rewrite lookup_insert_ne by done. by apply Hyield.
  - destruct (merge_changes_keep_going W pk future temp_dirs (sto s) Hd)
      as [s1 E]; [by eapply Hfin|].
    rewrite E in *. by simplify_eq.
  - intros q [->%elem_of_singleton|Hq]%elem_of_union; [by eexists|by apply Hyield].
Qed.

Lemma exec_keeps_going W (temp_dirs : TempDirs) n sched s :
  decodes W → keeps_going n s →
  keeps_going n (exec W false true temp_dirs sched s).
Proof.
  intros Hd. apply (exec_invariant W false true temp_dirs (keeps_going n)).
  intros s1 s2 H1 Ht. by eapply transition_keeps_going.
Qed.

Lemma pool_init_keeps_going s packages m :
  keeps_going (length packages) (pool_init s packages m).
Proof. split; simpl; done. Qed.

(** The moves as equations. *)
Lemma step_submit_eq W commit keep_going (temp_dirs : TempDirs) s :
  leaving s = None → submitted s < length (pkgs s) →
  step W commit keep_going temp_dirs Submit s
  = Some (Pool (sto s) (pkgs s) (S (submitted s)) (queue s ++ [submitted s])
               (workers s) (finished s) (yielded s) (leaving s)).
Proof.
  intros H1 H2. simpl. unfold step_submit. by rewrite bool_decide_eq_true_2.
Qed.

Lemma step_take_eq W commit keep_going (temp_dirs : TempDirs) s i p rest :
  workers s !! i = Some Idle → queue s = p :: rest →
  step W commit keep_going temp_dirs (Worker i) s
  = Some (Pool (sto s) (pkgs s) (submitted s) rest
               (<[i := Taken p]> (workers s)) (finished s) (yielded s)
               (leaving s)).
Proof. intros H1 H2. simpl. unfold step_worker. by rewrite H1, H2. Qed.

Lemma step_start_no_commit_eq W keep_going (temp_dirs : TempDirs) s i p pk :
  workers s !! i = Some (Taken p) → pkgs s !! p = Some pk →
  step W false keep_going temp_dirs (Worker i) s
  = Some (Pool (Store (trace (sto s)
                         ++ [Eprint (" - " +:+ name pk +:+ ": UPDATING ...");
                             UpdateScript (updateScript pk) None])
                      (held (sto s)))
               (<[p := pk]> (pkgs s)) (submitted s) (queue s)
               (<[i := Running p None]> (workers s)) (finished s) (yielded s)
               (leaving s)).
Proof.
  intros H1 H2. simpl. unfold step_worker. rewrite H1, H2.
  by rewrite start_script_no_commit.
Qed.

Lemma step_finish_eq W commit keep_going (temp_dirs : TempDirs) s i p cwd pk :
  workers s !! i = Some (Running p cwd) → pkgs s !! p = Some pk →
  step W commit keep_going temp_dirs (Worker i) s
  = Some (Pool (sto s) (pkgs s) (submitted s) (queue s)
               (<[i := Idle]> (workers s))
               (<[p := (wait_checked W (updateScript pk) true cwd (sto s)).1]>
                  (finished s))
               (yielded s) (leaving s)).
Proof.
  intros H1 H2. simpl. unfold step_worker. rewrite H1, H2.
  destruct (wait_checked W (updateScript pk) true cwd (sto s)) as [r st] eqn:E.
  by rewrite (wait_checked_store _ _ _ _ _ _ _ E).
Qed.

Lemma step_merge_ret_eq W commit keep_going (temp_dirs : TempDirs) s p future
    pk st :
  leaving s = None → submitted s = length (pkgs s) → p ∉ yielded s →
  finished s !! p = Some future → pkgs s !! p = Some pk →
  merge_changes W pk future commit keep_going temp_dirs (sto s) = (Ret (), st) →
  step W commit keep_going temp_dirs (Merge p) s
  = Some (Pool st (pkgs s) (submitted s) (queue s) (workers s) (finished s)
               ({[p]} ∪ yielded s) None).
Proof.
  intros H1 H2 H3 H4 H5 H6. simpl. unfold step_merge.
  rewrite bool_decide_eq_true_2 by done. by rewrite H4, H5, H6.
Qed.

Lemma exec_submits W commit keep_going (temp_dirs : TempDirs) m s :
  leaving s = None → submitted s + m ≤ length (pkgs s) →
  exec W commit keep_going temp_dirs (replicate m Submit) s
  = Pool (sto s) (pkgs s) (submitted s + m) (queue s ++ seq (submitted s) m)
         (workers s) (finished s) (yielded s) None.
Proof.
  revert s. induction m as [|m IH]; intros s Hl Hm.
  - simpl. rewrite Nat.add_0_r, app_nil_r. destruct s; simpl in *. by subst.
  - cbn [replicate exec]. rewrite step_submit_eq by (done || lia).
    cbn [default from_option id]. rewrite IH by (simpl; done || lia).
    simpl. rewrite <- app_assoc. f_equal. lia.
Qed.

Lemma forallb_replicate_idle m :
  forallb (λ w, bool_decide (w = Idle)) (replicate m Idle) = true.
Proof. induction m; [done|]. simpl. by rewrite IHm. Qed.

Ltac pool_simpl :=
  cbn [default from_option id sto pkgs submitted queue workers finished
       yielded leaving trace held fst snd].

Lemma round_runs W (temp_dirs : TempDirs) n m k s :
  decodes W → 0 < m → k < n →
  at_round n m k s →
  ∃ st pk r,
    exec W false true temp_dirs (round k) s
    = Pool st (<[k := pk]> (pkgs s)) n (seq (S k) (n - S k)) (replicate m Idle)
           (<[k := r]> (finished s)) ({[k]} ∪ yielded s) None.
Proof.
  intros Hd Hm Hk [[Hlen Hleave Hfin Hyield] Hsub Hq Hw Hy].
  destruct (lookup_lt_is_Some_2 (pkgs s) k) as [pk Hpk]; [lia|].
  assert (queue s = k :: seq (S k) (n - S k)) as Hq'.
  { rewrite Hq. replace (n - k) with (S (n - S k)) by lia. done. }
  assert (workers s !! 0 = Some Idle) as Hw0.
  { rewrite Hw. by apply lookup_replicate_2. }
  unfold round. cbn [exec].
  rewrite (step_take_eq _ _ _ _ s 0 k (seq (S k) (n - S k)) Hw0 Hq').
  pool_simpl.
  rewrite (step_start_no_commit_eq _ _ _ _ 0 k pk); cycle 1.
  { simpl. apply list_lookup_insert_eq. rewrite Hw, length_replicate. lia. }
  { done. }
  pool_simpl.
  rewrite (step_finish_eq _ _ _ _ _ 0 k None pk); cycle 1.
  { simpl. apply list_lookup_insert_eq. rewrite length_insert, Hw, length_replicate. lia. }
  { simpl. apply list_lookup_insert_eq. lia. }
  pool_simpl.
  match goal with
  | |- context [wait_checked W ?a ?b ?c ?d] =>
      destruct (wait_checked W a b c d) as [r st] eqn:Er
  end.
  pose proof (wait_checked_plain _ _ _ _ _ _ Er) as Hr.
  cbn [fst].
  match goal with
  | |- context [step W false true temp_dirs (Merge k) ?s3] =>
      destruct (merge_changes_keep_going W pk r temp_dirs (sto s3) Hd Hr)
        as [st' Em];
      rewrite (step_merge_ret_eq W false true temp_dirs s3 k r pk st')
  end; pool_simpl; try done.
  - exists st', pk, r. f_equal; [done|].
    rewrite !list_insert_insert_eq, Hw. apply list_insert_id.
    by apply lookup_replicate_2.
  - rewrite length_insert. congruence.
  - rewrite Hy. lia.
  - apply lookup_insert_eq.
  - apply list_lookup_insert_eq. lia.
Qed.

Lemma round_advances W (temp_dirs : TempDirs) n m k s :
  decodes W → 0 < m → k < n →
  at_round n m k s →
  at_round n m (S k) (exec W false true temp_dirs (round k) s).
Proof.
  intros Hd Hm Hk Hs.
  assert (keeps_going n (exec W false true temp_dirs (round k) s)) as Hkeeps
    by (apply exec_keeps_going; [done|apply Hs]).
  destruct (round_runs W temp_dirs n m k s Hd Hm Hk Hs) as (st & pk & r & E).
  rewrite E in *. split; simpl; try done.
  intros p. rewrite elem_of_union, elem_of_singleton, (ar_yielded _ _ _ _ Hs). lia.
Qed.

Lemma rounds_complete W (temp_dirs : TempDirs) n m j k s :
  decodes W → 0 < m → k + j = n →
  at_round n m k s →
  at_round n m n (exec W false true temp_dirs (flat_map round (seq k j)) s).
Proof.
  intros Hd Hm. revert k s. induction j as [|j IH]; intros k s Hk Hs.
  - simpl. by assert (k = n) as -> by lia.
  - cbn [seq flat_map]. rewrite exec_app. apply IH; [lia|].
    apply round_advances; [done|done|lia|done].
Qed.

Lemma at_round_done n m s : at_round n m n s → pool_done s = Some None.
Proof.
  intros [[Hlen Hleave Hfin Hyield] Hsub Hq Hw Hy].
  unfold pool_done, drained.
  rewrite Hq, Nat.sub_diag, Hw, forallb_replicate_idle, Hleave. simpl.
  rewrite bool_decide_eq_true_2 by congruence. simpl.
  rewrite (proj2 (forallb_forall _ _)); [done|].
  intros p Hp%in_seq. apply bool_decide_eq_true_2, Hy. lia.
Qed.

Lemma sequential_completes W (temp_dirs : TempDirs) packages m st :
  decodes W → 0 < m →
  pool_done (exec W false true temp_dirs (sequential (length packages))
               (pool_init st packages m)) = Some None.
Proof.
  intros Hd Hm. unfold sequential. rewrite exec_app.
  apply (at_round_done (length packages) m).
  apply rounds_complete; [done|done|lia|].
  rewrite exec_submits by (simpl; done || lia). simpl.
  split; simpl.
  - split; simpl; done.
  - done.
  - by rewrite Nat.sub_0_r.
  - done.
  - intros p. split; [set_solver|lia].
Qed.

Lemma pool_done_leaving s pending :
  pool_done s = Some pending → leaving s = pending.
Proof.
  unfold pool_done. destruct (drained s); [|done].
  destruct (leaving s); [by intros [= <-]|].
  case_match; [by intros [= <-]|done].
Qed.

Lemma pool_done_drained s pending :
  pool_done s = Some pending →
  queue s = [] ∧ ∀ i w, workers s !! i = Some w → w = Idle.
Proof.
  unfold pool_done, drained.
  destruct (bool_decide (queue s = [])) eqn:Hq; [|done].
  destruct (forallb _ (workers s)) eqn:Hw; [|done].
  intros _. apply bool_decide_eq_true in Hq. split; [done|].
  intros i w Hi. rewrite forallb_forall in Hw.
  specialize (Hw w). rewrite bool_decide_eq_true in Hw. apply Hw.
  apply list_elem_of_In. by eapply list_elem_of_lookup_2.
Qed.

Lemma pool_done_normal s :
  pool_done s = Some None →
  submitted s = length (pkgs s) ∧ ∀ p, p < length (pkgs s) → p ∈ yielded s.
Proof.
  unfold pool_done. destruct (drained s); [|done].
  destruct (leaving s); [done|].
  destruct (bool_decide (submitted s = length (pkgs s))) eqn:Hs; [|done].
  destruct (forallb _ _) eqn:Hy; [|done]. intros _.
  apply bool_decide_eq_true in Hs. split; [done|].
  intros p Hp. rewrite forallb_forall in Hy.
  specialize (Hy p). rewrite bool_decide_eq_true in Hy.
  apply Hy, in_seq. lia.
Qed.

(** A keep-going run without commit integration ends only at line 109,
    with every package merged. *)
Lemma main_block_keep_going W max_workers packages sched s e :
  decodes W → (0 < max_workers)%Z →
  ended (main_block W max_workers true false packages sched s) = Some e →
  e = SystemExit None
  ∧ ∃ pool,
      dispatch (main_block W max_workers true false packages sched s) = Some pool
      ∧ queue pool = []
      ∧ ∀ p, p < length packages → is_Some (finished pool !! p) ∧ p ∈ yielded pool.
Proof.
  intros Hd Hm. unfold main_block.
  rewrite bool_decide_eq_false_2 by lia.
  pose proof (exec_keeps_going W ∅ (length packages) sched
                (pool_init s packages (Z.to_nat max_workers)) Hd
                (pool_init_keeps_going _ _ _)) as [Hlen Hleave Hfin Hyield].
  destruct (pool_done _) as [pending|] eqn:Hdone; [|done].
  pose proof (pool_done_leaving _ _ Hdone) as Hp. rewrite Hleave in Hp. subst pending.
  destruct (pool_done_normal _ Hdone) as [Hsub Hall].
  destruct (pool_done_drained _ _ Hdone) as [Hq _].
  cbn [exit_stack]. rewrite main_epilogue_exits. simpl.
  intros [= <-]. split; [done|]. eexists. split; [done|]. split; [done|].
  intros p Hlt. rewrite <- Hlen in Hlt. split; [|by apply Hall].
  by apply Hyield, Hall.
Qed.

Lemma main_block_sequential W max_workers packages s :
  decodes W → (0 < max_workers)%Z →
  ended (main_block W max_workers true false packages
           (sequential (length packages)) s) = Some (SystemExit None).
Proof.
  intros Hd Hm. unfold main_block.
  rewrite bool_decide_eq_false_2 by lia.
  rewrite sequential_completes by (done || lia).
  cbn [exit_stack]. by rewrite main_epilogue_exits.
Qed.




(** ** What the end of a run leaves undone *)

Lemma transition_accounted W commit keep_going (temp_dirs : TempDirs) n s s' :
  accounted n s → transition W commit keep_going temp_dirs s s' → accounted n s'.
Proof.
  intros [Hlen Hsub Hleave Hwhere] Ht.
  destruct Ht as [s Hl Hlt|s i p0 rest Hi Hq|s i p0 pk pk' cwd st Hi Hpk E
                 |s i p0 pk e st Hi Hpk E|s i p0 cwd pk r st Hi Hpk E
                 |s p0 future pk r st Hl Hs Hy Hf Hpk E Hr];
    split; simpl; try done; try lia.
  - intros p Hp. destruct (decide (p = submitted s)) as [->|Hne].
    + left. set_solver.
    + destruct (Hwhere p) as [H|H]; [lia|left; set_solver|by right].
  - intros p Hp. pose proof (lookup_lt_Some _ _ _ Hi) as Hlt.
    destruct (Hwhere p Hp) as [H|[[j H]|[(j & cwd & H)|H]]].
    + rewrite Hq in H. apply elem_of_cons in H as [->|H]; [|by left].
      right; left. exists i. by apply list_lookup_insert_eq.
    + right; left. exists j. rewrite list_lookup_insert_ne; [done|congruence].
    + right; right; left. exists j, cwd.
      rewrite list_lookup_insert_ne; [done|congruence].
    + by repeat right.
  - by rewrite length_insert.
  - intros p Hp. pose proof (lookup_lt_Some _ _ _ Hi) as Hlt.
    destruct (Hwhere p Hp) as [H|[[j H]|[(j & cwd' & H)|H]]].
    + by left.
    + destruct (decide (j = i)) as [->|Hne].
      * assert (p = p0) as -> by congruence.
        right; right; left. exists i, cwd. by apply list_lookup_insert_eq.
      * right; left. exists j. by rewrite list_lookup_insert_ne.
    + right; right; left. exists j, cwd'.
      rewrite list_lookup_insert_ne; [done|congruence].
    + by repeat right.
  - intros p Hp. pose proof (lookup_lt_Some _ _ _ Hi) as Hlt.
    destruct (Hwhere p Hp) as [H|[[j H]|[(j & cwd' & H)|H]]].
    + by left.
    + destruct (decide (j = i)) as [->|Hne].
      * assert (p = p0) as -> by congruence.
        repeat right. rewrite lookup_insert_eq. by eexists.
      * right; left. exists j. by rewrite list_lookup_insert_ne.
    + right; right; left. exists j, cwd'.
      rewrite list_lookup_insert_ne; [done|congruence].
    + repeat right. by apply lookup_insert_is_Some'; right.
  - intros p Hp. pose proof (lookup_lt_Some _ _ _ Hi) as Hlt.
    destruct (Hwhere p Hp) as [H|[[j H]|[(j & cwd' & H)|H]]].
    + by left.
    + right; left. exists j. rewrite list_lookup_insert_ne; [done|congruence].
    + destruct (decide (j = i)) as [->|Hne].
      * assert (p = p0) as -> by congruence.
        repeat right. rewrite lookup_insert_eq. by eexists.
      * right; right; left. exists j, cwd'. by rewrite list_lookup_insert_ne.
    + repeat right. by apply lookup_insert_is_Some'; right.
Qed.

Lemma pool_init_accounted s packages m :
  accounted (length packages) (pool_init s packages m).
Proof. split; simpl; try done; lia. Qed.

Lemma exec_accounted W commit keep_going (temp_dirs : TempDirs) packages m sched s :
  accounted (length packages)
    (exec W commit keep_going temp_dirs sched (pool_init s packages m)).
Proof.
  apply (exec_invariant W commit keep_going temp_dirs
           (accounted (length packages))).
  - intros s1 s2 H1 Ht. by eapply transition_accounted.
  - apply pool_init_accounted.
Qed.

(** When the [with] block has been left, every package has had its script
    run to the end, whatever ended the loop. *)
Lemma pool_done_all_finished n s pending :
  accounted n s → pool_done s = Some pending →
  queue s = [] ∧ ∀ p, p < n → is_Some (finished s !! p).
Proof.
  intros [Hlen Hsub Hleave Hwhere] Hdone.
  destruct (pool_done_drained _ _ Hdone) as [Hq Hidle].
  split; [done|]. intros p Hp.
  assert (submitted s = n) as Hn.
  { pose proof (pool_done_leaving _ _ Hdone) as Hl.
    destruct pending as [e|].
    - apply Hleave. congruence.
    - destruct (pool_done_normal _ Hdone). congruence. }
  destruct (Hwhere p) as [H|[[j H]|[(j & cwd & H)|H]]]; [lia| | | |done].
  - rewrite Hq in H. set_solver.
  - by apply Hidle in H.
  - by apply Hidle in H.
Qed.

Lemma main_block_all_finished W max_workers keep_going commit packages sched s
    e pool :
  ended (main_block W max_workers keep_going commit packages sched s) = Some e →
  dispatch (main_block W max_workers keep_going commit packages sched s)
  = Some pool →
  queue pool = [] ∧ ∀ p, p < length packages → is_Some (finished pool !! p).
Proof.
  unfold main_block. case_bool_decide; [done|].
  destruct (if commit then _ else _) as [[r stack] s1].
  destruct r as [temp_dirs|e0|]; [| |done].
  2: { by destruct (exit_stack W stack (Some e0) s1). }
  pose proof (exec_accounted W commit keep_going temp_dirs packages
                (Z.to_nat max_workers) sched s1) as Hacc.
  destruct (pool_done _) as [pending|] eqn:Hdone; [|done].
  pose proof (pool_done_all_finished _ _ _ Hacc Hdone) as Hfin.
  destruct (exit_stack W stack pending _) as [[e1|] s2].
  - by intros _ [= <-].
  - destruct (main_epilogue s2) as [[] s3]; by intros _ [= <-].
Qed.

(** C5, a run that shows it.  Keep-going is off, one worker, the first of
    two packages fails.  The failure is reported and [sys.exit(1)] leaves the
    loop; leaving the [with] block then waits for the executor, which runs
    the second package, whose result is never looked at; only after that
    does the handler of line 126 cancel the futures, when none is left to
    cancel. *)
Lemma first_failure_does_not_cancel :
  script (sample_world [pkg_fail; pkg_ok] script_fails) 1 false false []
    (sequential 2)
  = Some (Exit
      [Eprint "";
       Eprint "Going to be running update for following packages:";
       Eprint " - bad"; Eprint " - ok"; Eprint "";
       Prompt "Press Enter key to continue...";
       Eprint ""; Eprint "Running update for:";
       Eprint " - bad: UPDATING ..."; UpdateScript ["fail"] None;
       Eprint " - bad: ERROR"; Eprint "";
       Eprint "--- SHOWING ERROR LOG FOR bad ----------------------";
       Eprint ""; Eprint "boom"; WriteLog "bad.log" "boom";
       Eprint "";
       Eprint "--- SHOWING ERROR LOG FOR bad ----------------------";
       Eprint " - ok: UPDATING ..."; UpdateScript ["ok"] None]
      1 []).
Proof. vm_compute. reflexivity. Qed.

(** C5 (as the code behaves).  The claim asks that after the first failure
    of a run without keep-going the packages not yet started never start.
    In the code, however the threads are scheduled, a run without keep-going
    that has dispatched its packages ends only when the work queue is empty
    and the update script of every package of the list has run to its end:
    the futures are cancelled after the executor has shut down, so nothing
    is ever cancelled. *)
Theorem queued_packages_run_after_first_failure W max_workers commit packages
    sched e pool x :
  ended (main W max_workers false commit packages sched (Store [] ∅)) = Some e →
  dispatch (main W max_workers false commit packages sched (Store [] ∅))
  = Some pool →
  script W max_workers false commit packages sched = Some x →
  queue pool = []
  ∧ (∀ p, p < length (pkgs pool) → is_Some (finished pool !! p))
  ∧ cancelled x = [].
Proof.
  unfold script. intros He Hp. rewrite He, Hp.
  intros [= <-]. cbn [cancelled from_option].
  revert He Hp. unfold main.
  destruct (main_prelude W packages (Store [] ∅)) as [[loaded|e0|] s]; [|done|done].
  intros He Hp.
  destruct (main_block_all_finished _ _ _ _ _ _ _ _ _ He Hp) as [Hq Hall].
  assert (length (pkgs pool) = length loaded) as Hlen.
  { revert He Hp. unfold main_block. case_bool_decide; [done|].
    destruct (if commit then _ else _) as [[r stack] s1].
    destruct r as [temp_dirs|e1|]; [| |done].
    2: { by destruct (exit_stack W stack (Some e1) s1). }
    pose proof (exec_accounted W commit false temp_dirs loaded
                  (Z.to_nat max_workers) sched s1) as [Hlen _ _ _].
    destruct (pool_done _) as [pending|]; [|done].
    destruct (exit_stack W stack pending _) as [[e2|] s2].
    - by intros _ [= <-].
    - destruct (main_epilogue s2) as [[] s3]; by intros _ [= <-]. }
  rewrite Hlen. split; [done|]. split; [done|]. by destruct (is_system_exit e).
Qed.

Lemma queued_packages_run_after_first_failure_witness :
  ∃ pool x,
    ended (main (sample_world [pkg_fail; pkg_ok] script_fails) 1 false false []
             (sequential 2) (Store [] ∅)) = Some (SystemExit (Some 1%Z))
    ∧ dispatch (main (sample_world [pkg_fail; pkg_ok] script_fails) 1 false
                  false [] (sequential 2) (Store [] ∅)) = Some pool
    ∧ script (sample_world [pkg_fail; pkg_ok] script_fails) 1 false false []
        (sequential 2) = Some x
    ∧ queue pool = []
    ∧ (∀ p, p < length (pkgs pool) → is_Some (finished pool !! p))
    ∧ cancelled x = [].
Proof.
  eexists _, _.
  split; [vm_compute; reflexivity|].
  split; [vm_compute; reflexivity|].
  split; [vm_compute; reflexivity|].
  refine (queued_packages_run_after_first_failure
            (sample_world [pkg_fail; pkg_ok] script_fails) 1 false []
            (sequential 2) (SystemExit (Some 1%Z)) _ _ _ _ _);
    vm_compute; reflexivity.
Defined.

(** ** Leaving the worktrees *)

Lemma exit_stack_pending W stack e s :
  (exit_stack W stack (Some e) s).1 = Some e.
Proof.
  revert s. induction stack as [|c stack IH]; intros s; [done|].
  simpl. apply IH.
Qed.

Lemma make_worktree_exit_cases W c s :
  (∃ e s', make_worktree_exit W c None s = (Some e, s') ∧ failing e)
  ∨ make_worktree_exit W c None s
    = (None, Store (trace s ++ cleanup_events c) (held s)).
Proof.
  unfold make_worktree_exit.
  destruct ((subprocess_run W Git ["git"; "worktree"; "remove"; target_directory c]
               false None ;;
             subprocess_run W Git ["git"; "branch"; "-D"; branch_name c]
               false None) s) as [r s1] eqn:E.
  revert E. rewrite bind_unfold. unfold subprocess_run at 1, popen.
  rewrite bind_unfold. cbn [emit]. unfold wait_checked at 1. cbn [trace held].
  case_bool_decide.
  - unfold subprocess_run, popen. rewrite bind_unfold. cbn [emit].
    unfold wait_checked. cbn [trace held]. case_bool_decide; intros [= <- <-].
    + right. cbn [emit trace held]. unfold cleanup_events.
      by rewrite <- !app_assoc.
    + left. by eexists _, _.
  - intros [= <- <-]. left. by eexists _, _.
Qed.

(** Left without a pending exception, the stack of worktrees either runs
    the whole cleanup or ends with the error of a cleanup command. *)
Lemma exit_stack_cases W stack s :
  (∃ e s', exit_stack W stack None s = (Some e, s') ∧ failing e)
  ∨ exit_stack W stack None s
    = (None, Store (trace s ++ flat_map cleanup_events stack) (held s)).
Proof.
  revert s. induction stack as [|c stack IH]; intros s.
  - right. simpl. rewrite app_nil_r. by destruct s.
  - cbn [exit_stack flat_map].
    destruct (make_worktree_exit_cases W c s) as [(e & s' & E & He)|E]; rewrite E.
    + left. pose proof (exit_stack_pending W stack e s') as Hp.
      destruct (exit_stack W stack (Some e) s') as [o s2]. simpl in Hp. subst o.
      by eexists _, _.
    + destruct (IH (Store (trace s ++ cleanup_events c) (held s)))
        as [(e & s' & E' & He)|E'].
      * left. by eexists _, _.
      * right. rewrite E'. cbn [trace held]. by rewrite <- app_assoc.
Qed.

Lemma make_worktree_enter_cases W i s :
  (∃ e s', make_worktree_enter W i s = (Raise e, s') ∧ failing e)
  ∨ ∃ s', make_worktree_enter W i s = (Ret (worktree_of W i), s').
Proof.
  unfold make_worktree_enter.
  destruct ((emit (MkTemp _) ;; subprocess_run W Git _ false None) s)
    as [r s1] eqn:E.
  assert (obeys (λ _, True) failing
            (emit (MkTemp (tmp_root W +:+ "/" +:+ tmp_name W i)) ;;
             subprocess_run W Git
               ["git"; "worktree"; "add"; "-b"; "update-" +:+ tmp_name W i;
                (tmp_root W +:+ "/" +:+ tmp_name W i) +:+ "/nixpkgs"]
               false None)) as Hob.
  { apply obeys_bind; [by apply obeys_emit|intros _].
    by apply obeys_subprocess_run. }
  destruct (Hob _ _ _ E) as (_ & _ & Hb & Hr).
  destruct r as [c|e|]; [|left|done].
  - right. by eexists.
  - rewrite bind_unfold. cbn [emit raise]. eexists _, _. split; [done|]. by apply Hr.
Qed.

Lemma make_temp_dirs_cases W indices stack (temp_dirs : TempDirs) s :
  (∃ e stack' s',
     make_temp_dirs W indices stack temp_dirs s = (Raise e, stack', s')
     ∧ failing e)
  ∨ ∃ temp_dirs' s',
      make_temp_dirs W indices stack temp_dirs s
      = (Ret temp_dirs', (worktree_of W <$> rev indices) ++ stack, s').
Proof.
  revert stack temp_dirs s.
  induction indices as [|i indices IH]; intros stack temp_dirs s.
  - right. by eexists _, _.
  - cbn [make_temp_dirs].
    destruct (make_worktree_enter_cases W i s) as [(e & s' & E & He)|[s' E]];
      rewrite E.
    + left. by eexists _, _, _.
    + destruct (IH (worktree_of W i :: stack)
                  (<[thread_name i := (target_directory (worktree_of W i),
                                       branch_name (worktree_of W i), i)]>
                     temp_dirs) s')
        as [(e & stack' & s2 & E' & He)|(td & s2 & E')]; rewrite E'.
      * left. by eexists _, _, _.
      * right. eexists _, _. f_equal. f_equal.
        cbn [rev]. rewrite fmap_app. cbn. by rewrite <- app_assoc.
Qed.

(** ** The exceptions of the pool *)

Lemma start_script_raises t pk commit (temp_dirs : TempDirs) s e st :
  start_script t pk commit temp_dirs s = (Raise e, st) → failing e.
Proof.
  unfold start_script, run_update_script_begin, popen, eprint, emit.
  rewrite !bind_unfold.
  destruct (supports_commit commit pk); [|done].
  destruct (temp_dirs !! t) as [[[worktree branch] lock]|].
  - rewrite bind_unfold. unfold lock_acquire. by case_bool_decide.
  - by intros [= <- <-].
Qed.

Lemma wait_checked_raises W args piped cwd s e st :
  wait_checked W args piped cwd s = (Raise e, st) → failing e.
Proof. unfold wait_checked. case_bool_decide; [done|]. by intros [= <- <-]. Qed.

Lemma merge_changes_raises W p future commit keep_going (temp_dirs : TempDirs)
    s e st :
  (∀ e', future = Raise e' → failing e') →
  merge_changes W p future commit keep_going temp_dirs s = (Raise e, st) →
  failing e.
Proof.
  intros Hf. unfold merge_changes.
  destruct (merge_try W p future commit temp_dirs s) as [[r lock] s1] eqn:Et.
  assert (∀ e', r = Raise e' → failing e') as Hr.
  { revert Et. unfold merge_try. destruct future as [execution|e0|].
    - destruct (supports_commit commit p).
      + destruct (thread p) as [t|]; [|by intros [= <- <- <-] ? [= <-]].
        destruct (temp_dirs !! t) as [[[worktree branch] l]|];
          [|by intros [= <- <- <-] ? [= <-]].
        destruct ((commit_changes W worktree branch execution ;;
                   eprint (" - " +:+ name p +:+ ": DONE.")) s) as [r0 s0] eqn:E0.
        intros [= <- <- <-].
        assert (obeys (λ _, True) failing
                  (commit_changes W worktree branch execution ;;
                   eprint (" - " +:+ name p +:+ ": DONE."))) as Hob.
        { apply obeys_bind.
          - eapply obeys_mono; [| |apply obeys_commit_changes]; done.
          - intros _. by apply obeys_emit. }
        by destruct (Hob _ _ _ E0) as (_ & _ & _ & H).
      + by intros [= <- <- <-].
    - intros [= <- <- <-]. intros e' [= <-]. by apply Hf.
    - by intros [= <- <- <-]. }
  destruct (match r with
            | Raise (CalledProcessError _ _ output) =>
                merge_except W p output keep_going s1
            | _ => (r, s1)
            end) as [r' s2] eqn:Ee.
  assert (∀ e', r' = Raise e' → failing e') as Hr'.
  { destruct r as [[]|e0|]; try (by injection Ee as <- <-).
    destruct e0; try (by injection Ee as <- <-).
    by destruct (obeys_merge_except W (λ _, True) _ _ _
                   ltac:(done) ltac:(done) _ _ _ Ee) as (_ & _ & _ & H). }
  unfold merge_finally. destruct (supports_commit commit p).
  - destruct lock as [l|]; [|by intros [= <- <-]].
    unfold lock_release. case_bool_decide.
    + intros [= -> <-]. by apply Hr'.
    + by intros [= <- <-].
  - intros [= -> <-]. by apply Hr'.
Qed.

Lemma transition_fails_loudly W commit keep_going (temp_dirs : TempDirs) s s' :
  fails_loudly s → transition W commit keep_going temp_dirs s s' →
  fails_loudly s'.
Proof.
  intros [Hleave Hfin] Ht.
  destruct Ht as [s Hl Hlt|s i p0 rest Hi Hq|s i p0 pk pk' cwd st Hi Hpk E
                 |s i p0 pk e st Hi Hpk E|s i p0 cwd pk r st Hi Hpk E
                 |s p0 future pk r st Hl Hs Hy Hf Hpk E Hr];
    split; simpl; try done.
  - intros p e'. destruct (decide (p0 = p)) as [->|Hne].
    + rewrite lookup_insert_eq. intros [= <-]. by eapply start_script_raises.
    + rewrite lookup_insert_ne by done. apply Hfin.
  - intros p e'. destruct (decide (p0 = p)) as [->|Hne].
    + rewrite lookup_insert_eq. intros [= ->]. by eapply wait_checked_raises.
    + rewrite lookup_insert_ne by done. apply Hfin.
  - intros e'. destruct r as [|e0|]; [done| |done].
    intros [= <-]. eapply merge_changes_raises; [|done].
    intros e' ->. by eapply Hfin.
Qed.

Lemma exec_fails_loudly W commit keep_going (temp_dirs : TempDirs) sched s
    packages m :
  fails_loudly (exec W commit keep_going temp_dirs sched (pool_init s packages m)).
Proof.
  apply (exec_invariant W commit keep_going temp_dirs fails_loudly).
  - intros s1 s2 H1 Ht. by eapply transition_fails_loudly.
  - split; simpl; [done|]. intros p e. by rewrite lookup_empty.
Qed.

Lemma main_block_clean_exit W max_workers keep_going packages sched s e :
  ended (main_block W max_workers keep_going true packages sched s) = Some e →
  exit_status e = 0%Z →
  ∃ before,
    trace (final (main_block W max_workers keep_going true packages sched s))
    = before
        ++ flat_map cleanup_events
             (worktree_of W <$> rev (seq 0 (Z.to_nat max_workers)))
        ++ [Eprint ""; Eprint "Packages updated!"].
Proof.
  unfold main_block. case_bool_decide; [by intros [= <-]|].
  destruct (make_temp_dirs_cases W (seq 0 (Z.to_nat max_workers)) [] ∅ s)
    as [(e0 & stack & s1 & E & He0)|(temp_dirs & s1 & E)]; rewrite E.
  - pose proof (exit_stack_pending W stack e0 s1) as Hp.
    destruct (exit_stack W stack (Some e0) s1) as [o s2]. simpl in Hp. subst o.
    simpl. by intros [= <-].
  - rewrite app_nil_r.
    pose proof (exec_fails_loudly W true keep_going temp_dirs sched s1 packages
                  (Z.to_nat max_workers)) as [Hleave _].
    destruct (pool_done _) as [pending|] eqn:Hdone; [|done].
    apply pool_done_leaving in Hdone.
    destruct pending as [e1|].
    + pose proof (exit_stack_pending W
                    (worktree_of W <$> rev (seq 0 (Z.to_nat max_workers))) e1
                    (sto (exec W true keep_going temp_dirs sched
                            (pool_init s1 packages (Z.to_nat max_workers)))))
        as Hp.
      destruct (exit_stack W _ (Some e1) _) as [o s2]. simpl in Hp. subst o.
      simpl. intros [= <-] He. by apply Hleave in Hdone.
    + destruct (exit_stack_cases W
                  (worktree_of W <$> rev (seq 0 (Z.to_nat max_workers)))
                  (sto (exec W true keep_going temp_dirs sched
                          (pool_init s1 packages (Z.to_nat max_workers)))))
        as [(e2 & s2 & E2 & He2)|E2]; rewrite E2.
      * simpl. by intros [= <-].
      * rewrite main_epilogue_exits. simpl. intros _ _.
        eexists. by rewrite <- app_assoc.
Qed.




(** * Further properties of the code *)

(** ** run_update_script *)



(** ** merge_changes *)

Lemma merge_changes_releases_witness :
  ∃ r new,
    merge_changes (sample_world [] remove_fails)
      (set_thread pkg_garbage (thread_name 0))
      (Ret (Completed 0 (Some "garbage") (Some ""))) true false
      {[ thread_name 0 := ("/wt", "update-x", 0) ]} (Store [Acquire 0] {[0]})
    = (r, Store ([Acquire 0] ++ new ++ [Release 0]) ({[0]} ∖ {[0]}))
    ∧ Forall (λ e, ¬ is_lock_event e) new.
Proof.
  refine (merge_changes_releases (sample_world [] remove_fails)
            (set_thread pkg_garbage (thread_name 0)) (thread_name 0)
            "/wt" "update-x" 0 (Completed 0 (Some "garbage") (Some "")) false
            _ (Store [Acquire 0] {[0]}) _ _ _ _).
  - reflexivity.
  - reflexivity.
  - reflexivity.
  - vm_compute. reflexivity.
Defined.



(** ** commit_changes *)

Lemma obeys_git_run W (P : event → Prop) (Q : exn → Prop) args cwd :
  P (Git args cwd) → (∀ code, Q (CalledProcessError args code None)) →
  obeys P Q (subprocess_run W Git args false cwd).
Proof.
  intros HP HQ. unfold subprocess_run, popen.
  apply obeys_bind; [by apply obeys_emit|]. intros _.
  intros s r s'. unfold wait_checked. case_bool_decide; intros [= <- <-].
  - split_and!; try done. exists []. by rewrite app_nil_r.
  - split_and!; try done.
    + exists []. by rewrite app_nil_r.
    + intros e [= <-]. apply HQ.
Qed.

Lemma commit_message_raises W change e :
  commit_message W change = Raise e → commit_changes_error e.
Proof.
  unfold commit_message, format_field, py_getitem.
  destruct change; try by intros [= <-].
  destruct (dict_get "attrPath" members) as [[]|]; try (by intros [= <-]);
    destruct (dict_get "oldVersion" members) as [[]|]; try (by intros [= <-]);
    destruct (dict_get "newVersion" members) as [[]|]; by intros [= <-].
Qed.

Lemma commit_message_not_block W change : commit_message W change ≠ Block.
Proof.
  unfold commit_message, format_field, py_getitem.
  destruct change; try done.
  destruct (dict_get "attrPath" members) as [[]|]; try done;
    destruct (dict_get "oldVersion" members) as [[]|]; try done;
    by destruct (dict_get "newVersion" members) as [[]|].
Qed.

Lemma obeys_commit_changes_footprint W worktree branch execution :
  obeys (commit_changes_event worktree branch) commit_changes_error
    (commit_changes W worktree branch execution).
Proof.
  unfold commit_changes. destruct (stdout execution) as [captured|].
  2: { by apply obeys_raise. }
  destruct (json_loads W captured) as [changes|].
  2: { by apply obeys_raise. }
  apply obeys_bind.
  { apply obeys_lift; destruct changes; try done; by intros ? [= <-]. }
  intros items. apply obeys_for_each. intros c. unfold commit_change.
  apply obeys_bind.
  { apply obeys_lift; [apply py_getitem_not_block|].
    intros e. destruct c; simpl; try by intros [= <-].
    destruct (dict_get "files" members); by intros [= <-]. }
  intros fs. apply obeys_bind.
  { apply obeys_lift; destruct fs; simpl; try done; try (by intros ? [= <-]);
      destruct (mapM as_str items0); try done; by intros ? [= <-]. }
  intros paths. apply obeys_bind.
  { apply obeys_git_run; [|done]. left. by eexists. }
  intros _. apply obeys_bind.
  { apply obeys_lift; [apply commit_message_not_block|].
    intros e. apply commit_message_raises. }
  intros message. apply obeys_bind.
  { apply obeys_git_run; [|done]. right; left. by eexists. }
  intros _. apply obeys_bind.
  { apply obeys_git_run; [|done]. by right; right. }
  intros _. apply obeys_ret.
Qed.



(** X5.  When a [git] command fails while a package is merged, the handler
    of [CalledProcessError] starts its report and then fails itself: the
    output of the [git] command was not piped, so [e.stdout] is [None] and
    decoding it raises [AttributeError].  No log file is written, keep-going
    is not consulted, and the lock is released as the last step. *)
Theorem git_failure_breaks_the_error_report W p t worktree branch l execution
    keep_going (temp_dirs : TempDirs) s cmd code output s1 :
  supports_commit true p = true →
  thread p = Some t →
  temp_dirs !! t = Some (worktree, branch, l) →
  l ∈ held s →
  commit_changes W worktree branch execution s
  = (Raise (CalledProcessError cmd code output), s1) →
  merge_changes W p (Ret execution) true keep_going temp_dirs s
  = (Raise AttributeError,
     Store (trace s1
              ++ [Eprint (" - " +:+ name p +:+ ": ERROR"); Eprint "";
                  Eprint (error_banner p); Eprint ""; Release l])
           (held s ∖ {[l]})).
Proof.
  intros Hp Ht Htd Hl Hc.
  destruct (obeys_commit_changes_footprint W worktree branch execution _ _ _ Hc)
    as (_ & Hh & _ & He).
  specialize (He _ eq_refl). destruct output as [captured|]; [done|].
  unfold merge_changes, merge_try. rewrite Hp, Ht, Htd.
  rewrite bind_unfold, Hc.
  unfold merge_except, merge_finally, eprint, emit, raise.
  repeat (rewrite bind_unfold; cbn [mret M_ret trace held]).
  rewrite Hp. unfold lock_release. cbn [trace held].
  rewrite bool_decide_eq_true_2 by congruence.
  rewrite Hh. by rewrite <- !app_assoc.
Qed.

Lemma git_failure_breaks_the_error_report_witness :
  merge_changes
    (sample_world [] (λ args, bool_decide (take 2 args = ["git"; "commit"])))
    (set_thread pkg_two (thread_name 0))
    (Ret (Completed 0 (Some "two changes") (Some ""))) true true
    {[ thread_name 0 := ("/wt", "update-x", 0) ]} (Store [Acquire 0] {[0]})
  = (Raise AttributeError,
     Store ([Acquire 0; Git ["git"; "add"; "hello.nix"] (Some "/wt");
             Git ["git"; "commit"; "-m"; "hello: 1.0 → 1.1"] (Some "/wt")]
              ++ [Eprint (" - " +:+ "two" +:+ ": ERROR"); Eprint "";
                  Eprint (error_banner (set_thread pkg_two (thread_name 0)));
                  Eprint ""; Release 0])
           ({[0]} ∖ {[0]})).
Proof.
  refine (git_failure_breaks_the_error_report
            (sample_world [] (λ args, bool_decide (take 2 args = ["git"; "commit"])))
            (set_thread pkg_two (thread_name 0)) (thread_name 0)
            "/wt" "update-x" 0 (Completed 0 (Some "two changes") (Some ""))
            true _ (Store [Acquire 0] {[0]})
            ["git"; "commit"; "-m"; "hello: 1.0 → 1.1"] 1 None
            (Store [Acquire 0; Git ["git"; "add"; "hello.nix"] (Some "/wt");
                    Git ["git"; "commit"; "-m"; "hello: 1.0 → 1.1"] (Some "/wt")]
                   {[0]})
            _ _ _ _ _).
  - reflexivity.
  - reflexivity.
  - reflexivity.
  - vm_compute. reflexivity.
  - vm_compute. reflexivity.
Defined.

Lemma mapM_as_str_strings (paths : list string) :
  mapM as_str (JStr <$> paths) = Some paths.
Proof.
  apply mapM_Some. induction paths as [|x paths IH]; [constructor|].
  by constructor.
Qed.

(** X6.  A record that lists its files but has no [attrPath] gets its files
    staged and then stops the merge with [KeyError]: the commit message is
    formatted after [git add] has run, so the files stay staged in the
    worktree and nothing is committed or cherry-picked for the record. *)
Theorem record_without_attr_path_is_staged_only W worktree branch members
    paths s :
  dict_get "files" members = Some (JArr (JStr <$> paths)) →
  dict_get "attrPath" members = None →
  exit_code (process W (trace s ++ [Git (["git"; "add"] ++ paths) (Some worktree)])
               (["git"; "add"] ++ paths) (Some worktree)) = 0%Z →
  commit_change W worktree branch (JObj members) s
  = (Raise (KeyError "attrPath"),
     Store (trace s ++ [Git (["git"; "add"] ++ paths) (Some worktree)]) (held s)).
Proof.
  intros Hf Ha Hg. unfold commit_change.
  rewrite bind_unfold. unfold lift at 1. cbn [py_getitem]. rewrite Hf.
  rewrite bind_unfold. unfold lift at 1. cbn [py_str_list].
  rewrite mapM_as_str_strings.
  rewrite bind_unfold. unfold subprocess_run, popen, emit.
  rewrite bind_unfold. unfold wait_checked. cbn [trace held].
  rewrite bool_decide_eq_true_2 by done.
  rewrite bind_unfold. unfold lift, commit_message, format_field.
  cbn [py_getitem]. by rewrite Ha.
Qed.

Lemma record_without_attr_path_is_staged_only_witness :
  commit_change (sample_world [] script_fails) "/wt" "update-x"
    (JObj [("files", JArr (JStr <$> ["a.nix"])); ("oldVersion", JStr "1")])
    (Store [] ∅)
  = (Raise (KeyError "attrPath"),
     Store ([] ++ [Git (["git"; "add"] ++ ["a.nix"]) (Some "/wt")]) ∅).
Proof.
  refine (record_without_attr_path_is_staged_only (sample_world [] script_fails)
            "/wt" "update-x"
            [("files", JArr (JStr <$> ["a.nix"])); ("oldVersion", JStr "1")]
            ["a.nix"] (Store [] ∅) _ _ _); reflexivity.
Defined.

(** ** make_worktree and the stack of worktrees *)

Lemma exit_stack_pending_trace W stack e s :
  exit_stack W stack (Some e) s
  = (Some e,
     Store (trace s ++ ((λ c, RmTemp (temp_directory c)) <$> stack)) (held s)).
Proof.
  revert s. induction stack as [|c stack IH]; intros s.
  - simpl. rewrite app_nil_r. by destruct s.
  - cbn [exit_stack make_worktree_exit emit]. rewrite IH. cbn [trace held fmap list_fmap].
    by rewrite <- app_assoc.
Qed.

(** X7.  When the [with] block is left by an exception, no worktree is
    removed with [git] and no branch is deleted: each context only removes
    its temporary directory, last entered first, and the exception stays
    pending. *)
Theorem pending_exception_skips_git_cleanup W stack e s :
  exit_stack W stack (Some e) s
  = (Some e,
     Store (trace s ++ ((λ c, RmTemp (temp_directory c)) <$> stack)) (held s)).
Proof. apply exit_stack_pending_trace. Qed.

Lemma make_worktree_exit_removes W c pending s :
  ∃ mid, trace (make_worktree_exit W c pending s).2
         = trace s ++ mid ++ [RmTemp (temp_directory c)].
Proof.
  unfold make_worktree_exit. destruct pending as [e|].
  - exists []. done.
  - destruct ((subprocess_run W Git _ false None ;;
               subprocess_run W Git _ false None) s) as [r s1] eqn:E.
    assert (obeys (λ _, True) (λ _, True)
              (subprocess_run W Git
                 ["git"; "worktree"; "remove"; target_directory c] false None ;;
               subprocess_run W Git
                 ["git"; "branch"; "-D"; branch_name c] false None)) as Hob.
    { apply obeys_bind; [by apply obeys_subprocess_run|intros _].
      by apply obeys_subprocess_run. }
    destruct (Hob _ _ _ E) as ([mid [T _]] & _).
    exists mid. destruct r; cbn [emit snd trace]; by rewrite T, <- app_assoc.
Qed.

Lemma exit_stack_extends W stack pending s :
  ∃ new, trace (exit_stack W stack pending s).2 = trace s ++ new.
Proof.
  revert pending s. induction stack as [|c stack IH]; intros pending s.
  - exists []. by rewrite app_nil_r.
  - cbn [exit_stack].
    destruct (make_worktree_exit_removes W c pending s) as [mid Hm].
    destruct (make_worktree_exit W c pending s) as [pending' s1].
    destruct (IH pending' s1) as [new Hn]. rewrite Hn. simpl in Hm. rewrite Hm.
    eexists. by rewrite <- !app_assoc.
Qed.

(** X8.  However the [with] block is left, and whether or not the [git]
    commands of the cleanup succeed, the temporary directory of every
    worktree that was entered is removed. *)
Theorem temporary_directories_are_always_removed W stack pending s c :
  c ∈ stack →
  RmTemp (temp_directory c) ∈ trace (exit_stack W stack pending s).2.
Proof.
  revert pending s. induction stack as [|c' stack IH]; intros pending s Hc.
  - by apply elem_of_nil in Hc.
  - cbn [exit_stack].
    destruct (make_worktree_exit_removes W c' pending s) as [mid Hm].
    destruct (make_worktree_exit W c' pending s) as [pending' s1].
    simpl in Hm. apply elem_of_cons in Hc as [->|Hc].
    + destruct (exit_stack_extends W stack pending' s1) as [new Hn].
      rewrite Hn, Hm. set_solver.
    + by apply IH.
Qed.

Lemma temporary_directories_are_always_removed_witness :
  RmTemp "/tmp/tmp0"
  ∈ trace (exit_stack (sample_world [] remove_fails)
             [worktree_of (sample_world [] remove_fails) 1;
              worktree_of (sample_world [] remove_fails) 0]
             None (Store [] ∅)).2.
Proof.
  refine (temporary_directories_are_always_removed
            (sample_world [] remove_fails)
            [worktree_of (sample_world [] remove_fails) 1;
             worktree_of (sample_world [] remove_fails) 0]
            None (Store [] ∅) (worktree_of (sample_world [] remove_fails) 0) _).
  vm_compute. apply list_elem_of_further, list_elem_of_here.
Defined.

Lemma thread_name_inj : Inj (=) (=) thread_name.
Proof.
  intros i j H. unfold thread_name in H.
  apply String.app_inj, String.app_inj in H. by apply pretty_nat_inj in H.
Qed.

Lemma make_temp_dirs_lookup W indices stack (temp_dirs temp_dirs' : TempDirs)
    stack' s s' :
  NoDup indices →
  make_temp_dirs W indices stack temp_dirs s = (Ret temp_dirs', stack', s') →
  (∀ i, i ∈ indices →
        temp_dirs' !! thread_name i
        = Some (target_directory (worktree_of W i),
                branch_name (worktree_of W i), i))
  ∧ (∀ k, (∀ i, i ∈ indices → thread_name i ≠ k) →
          temp_dirs' !! k = temp_dirs !! k).
Proof.
  revert stack temp_dirs s.
  induction indices as [|i indices IH]; intros stack temp_dirs s Hnd.
  - intros [= <- <- <-]. split; [|done]. intros i Hi. by apply elem_of_nil in Hi.
  - apply NoDup_cons in Hnd as [Hi Hnd]. cbn [make_temp_dirs].
    destruct (make_worktree_enter_cases W i s) as [(e & s1 & E & _)|[s1 E]];
      rewrite E; [done|].
    intros Hm. destruct (IH _ _ _ Hnd Hm) as [Hin Hout]. split.
    + intros j [->|Hj]%elem_of_cons; [|by apply Hin].
      rewrite Hout; [apply lookup_insert_eq|].
      intros i' Hi' Heq. apply thread_name_inj in Heq. by subst.
    + intros k Hk. rewrite Hout.
      * apply lookup_insert_ne. apply Hk, elem_of_cons. by left.
      * intros i' Hi'. apply Hk, elem_of_cons. by right.
Qed.

(** X9.  When the worktrees of a pool of [n] threads have been created, the
    table has an entry for the name of each thread [i < n], made of the
    [i]-th worktree, its branch and a lock of its own, and has no other
    entry: a worker thread always finds its worktree. *)
Theorem every_thread_finds_its_worktree W n s (temp_dirs : TempDirs) stack s' :
  make_temp_dirs W (seq 0 n) [] ∅ s = (Ret temp_dirs, stack, s') →
  (∀ i, i < n →
        temp_dirs !! thread_name i
        = Some (target_directory (worktree_of W i),
                branch_name (worktree_of W i), i))
  ∧ (∀ k, is_Some (temp_dirs !! k) → ∃ i, i < n ∧ k = thread_name i).
Proof.
  intros Hm.
  destruct (make_temp_dirs_lookup W (seq 0 n) [] ∅ temp_dirs stack s s'
              (NoDup_seq 0 n) Hm) as [Hin Hout].
  split.
  - intros i Hi. apply Hin. apply elem_of_seq. lia.
  - intros k Hk.
    destruct (decide (Exists (λ i, k = thread_name i) (seq 0 n))) as [He|Hne].
    + apply Exists_exists in He as (i & Hi%elem_of_seq & ->).
      exists i. split; [lia|done].
    + rewrite Hout in Hk; [by rewrite lookup_empty in Hk; destruct Hk|].
      intros i Hi <-. apply Hne, Exists_exists. by exists i.
Qed.

Lemma every_thread_finds_its_worktree_witness :
  ∃ (temp_dirs : TempDirs) stack s',
    make_temp_dirs (sample_world [] script_fails) (seq 0 2) [] ∅ (Store [] ∅)
    = (Ret temp_dirs, stack, s')
    ∧ (∀ i, i < 2 →
            temp_dirs !! thread_name i
            = Some (target_directory (worktree_of (sample_world [] script_fails) i),
                    branch_name (worktree_of (sample_world [] script_fails) i),
                    i))
    ∧ (∀ k, is_Some (temp_dirs !! k) → ∃ i, i < 2 ∧ k = thread_name i).
Proof.
  eexists _, _, _. split; [vm_compute; reflexivity|].
  refine (every_thread_finds_its_worktree (sample_world [] script_fails) 2
            (Store [] ∅) _ _ _ _).
  vm_compute. reflexivity.
Defined.

Lemma make_worktree_enter_ok W i s :
  (∀ history, exit_code (process W history (worktree_add W i) None) = 0%Z) →
  make_worktree_enter W i s
  = (Ret (worktree_of W i), Store (trace s ++ creation_events W i) (held s)).
Proof.
  intros Hok. unfold make_worktree_enter, subprocess_run, popen, emit.
  rewrite !bind_unfold. unfold wait_checked. cbn [trace held].
  fold (worktree_add W i). rewrite bool_decide_eq_true_2 by apply Hok.
  unfold creation_events, worktree_of. cbn [temp_directory].
  by rewrite <- app_assoc.
Qed.

Lemma make_worktree_enter_fails W i s :
  (∀ history, exit_code (process W history (worktree_add W i) None) ≠ 0%Z) →
  ∃ code,
    code ≠ 0%Z
    ∧ make_worktree_enter W i s
      = (Raise (CalledProcessError (worktree_add W i) code None),
         Store (trace s ++ creation_events W i
                  ++ [RmTemp (temp_directory (worktree_of W i))]) (held s)).
Proof.
  intros Hfail. unfold make_worktree_enter, subprocess_run, popen, emit.
  rewrite !bind_unfold. unfold wait_checked. cbn [trace held].
  fold (worktree_add W i). rewrite bool_decide_eq_false_2 by apply Hfail.
  eexists. split; [apply Hfail|].
  rewrite bind_unfold. unfold raise. cbn [trace held].
  unfold creation_events, worktree_of. cbn [temp_directory].
  by rewrite <- !app_assoc.
Qed.

Lemma make_temp_dirs_fails_at W k m j stack (temp_dirs : TempDirs) s :
  j ≤ k < j + m →
  (∀ i history, j ≤ i < k →
     exit_code (process W history (worktree_add W i) None) = 0%Z) →
  (∀ history, exit_code (process W history (worktree_add W k) None) ≠ 0%Z) →
  ∃ code,
    code ≠ 0%Z
    ∧ make_temp_dirs W (seq j m) stack temp_dirs s
      = (Raise (CalledProcessError (worktree_add W k) code None),
         (worktree_of W <$> rev (seq j (k - j))) ++ stack,
         Store (trace s ++ flat_map (creation_events W) (seq j (k - j))
                  ++ creation_events W k
                  ++ [RmTemp (temp_directory (worktree_of W k))]) (held s)).
Proof.
  revert j stack temp_dirs s.
  induction m as [|m IH]; intros j stack temp_dirs s Hk Hok Hfail; [lia|].
  cbn [seq make_temp_dirs]. destruct (decide (j = k)) as [->|Hne].
  - destruct (make_worktree_enter_fails W k s Hfail) as (code & Hc & E).
    rewrite E. exists code. split; [done|]. by rewrite Nat.sub_diag.
  - rewrite make_worktree_enter_ok by (intros h; apply Hok; lia).
    destruct (IH (S j) (worktree_of W j :: stack)
                (<[thread_name j := (target_directory (worktree_of W j),
                                     branch_name (worktree_of W j), j)]>
                   temp_dirs)
                (Store (trace s ++ creation_events W j) (held s)))
      as (code & Hc & E); [lia|intros; apply Hok; lia|done|].
    rewrite E. exists code. split; [done|].
    replace (k - j) with (S (k - S j)) by lia.
    cbn [seq rev flat_map trace held]. rewrite fmap_app. cbn [fmap list_fmap].
    by rewrite <- !app_assoc.
Qed.

(** X10.  Fail fast: when [git worktree add] succeeds for the first [k]
    worktrees and fails for the next one, the run ends with that
    [CalledProcessError] before any package is dispatched.  The temporary
    directories are removed, but the [k] worktrees already added and their
    branches are left as they are: no [git worktree remove], no
    [git branch -D]. *)
Theorem failed_worktree_creation_stops_the_run W max_workers keep_going packages
    sched k s :
  k < Z.to_nat max_workers →
  (∀ i history, i < k →
     exit_code (process W history (worktree_add W i) None) = 0%Z) →
  (∀ history, exit_code (process W history (worktree_add W k) None) ≠ 0%Z) →
  ∃ code,
    code ≠ 0%Z
    ∧ main_block W max_workers keep_going true packages sched s
      = Run (Store (trace s ++ flat_map (creation_events W) (seq 0 k)
                      ++ creation_events W k
                      ++ [RmTemp (temp_directory (worktree_of W k))]
                      ++ ((λ i, RmTemp (temp_directory (worktree_of W i)))
                            <$> rev (seq 0 k)))
                   (held s))
            (Some (CalledProcessError (worktree_add W k) code None)) ∅ None.
Proof.
  intros Hk Hok Hfail. unfold main_block.
  rewrite bool_decide_eq_false_2 by lia.
  destruct (make_temp_dirs_fails_at W k (Z.to_nat max_workers) 0 [] ∅ s)
    as (code & Hc & E); [lia|intros; apply Hok; lia|done|].
  rewrite E, exit_stack_pending_trace. exists code. split; [done|].
  rewrite Nat.sub_0_r, app_nil_r. cbn [trace held].
  rewrite <- list_fmap_compose. unfold compose.
  by rewrite <- !app_assoc.
Qed.

Lemma failed_worktree_creation_stops_the_run_witness :
  ∃ code,
    code ≠ 0%Z
    ∧ main_block
        (sample_world []
           (λ args, bool_decide (args = ["git"; "worktree"; "add"; "-b";
                                         "update-tmp1"; "/tmp/tmp1/nixpkgs"])))
        3 false true [pkg_ok] (sequential 1) (Store [] ∅)
      = Run (Store ([] ++ [MkTemp "/tmp/tmp0";
                           Git ["git"; "worktree"; "add"; "-b"; "update-tmp0";
                                "/tmp/tmp0/nixpkgs"] None]
                       ++ [MkTemp "/tmp/tmp1";
                           Git ["git"; "worktree"; "add"; "-b"; "update-tmp1";
                                "/tmp/tmp1/nixpkgs"] None]
                       ++ [RmTemp "/tmp/tmp1"]
                       ++ [RmTemp "/tmp/tmp0"])
                   ∅)
            (Some (CalledProcessError
                     ["git"; "worktree"; "add"; "-b"; "update-tmp1";
                      "/tmp/tmp1/nixpkgs"] code None)) ∅ None.
Proof.
  refine (failed_worktree_creation_stops_the_run
            (sample_world []
               (λ args, bool_decide (args = ["git"; "worktree"; "add"; "-b";
                                             "update-tmp1"; "/tmp/tmp1/nixpkgs"])))
            3 false [pkg_ok] (sequential 1) 1 (Store [] ∅) _ _ _).
  - vm_compute. lia.
  - intros i history Hi. assert (i = 0) as -> by lia. reflexivity.
  - intros history. vm_compute. discriminate.
Defined.

(** ** The futures *)

Lemma start_script_cases t pk commit (temp_dirs : TempDirs) s r st :
  start_script t pk commit temp_dirs s = (r, st) →
  held s ⊆ held st
  ∧ match r with
    | Ret (pk', cwd) => supportedFeatures pk' = supportedFeatures pk
    | Raise e => supports_commit commit pk = true ∧ temp_dirs !! t = None
    | Block =>
        supports_commit commit pk = true
        ∧ ∃ worktree branch l, temp_dirs !! t = Some (worktree, branch, l)
                               ∧ l ∈ held s
    end.
Proof.
  unfold start_script, run_update_script_begin, popen, eprint, emit.
  rewrite !bind_unfold.
  destruct (supports_commit commit pk).
  - destruct (temp_dirs !! t) as [[[worktree branch] l]|].
    + rewrite bind_unfold. unfold lock_acquire. case_bool_decide.
      * intros [= <- <-]. split; [done|]. split; [done|]. by eexists _, _, _.
      * intros [= <- <-]. cbn. split; [set_solver|done].
    + by intros [= <- <-].
  - by intros [= <- <-].
Qed.

Lemma transition_only_script_outcomes W commit keep_going (temp_dirs : TempDirs)
    m s s' :
  (commit = true → ∀ i, i < m → is_Some (temp_dirs !! thread_name i)) →
  only_script_outcomes m s →
  transition W commit keep_going temp_dirs s s' →
  only_script_outcomes m s'.
Proof.
  intros Htd [Hlen Hfin] Ht.
  destruct Ht as [s Hl Hlt|s i p0 rest Hi Hq|s i p0 pk pk' cwd st Hi Hpk E
                 |s i p0 pk e st Hi Hpk E|s i p0 cwd pk r st Hi Hpk E
                 |s p0 future pk r st Hl Hs Hy Hf Hpk E Hr];
    split; simpl; try done; try (by rewrite length_insert).
  - apply start_script_cases in E as (_ & Hc & Hnone).
    apply lookup_lt_Some in Hi. rewrite Hlen in Hi.
    destruct commit; [|done].
    destruct (Htd eq_refl i Hi) as [x Hx]. congruence.
  - intros p f. destruct (decide (p0 = p)) as [->|Hne].
    + rewrite lookup_insert_eq. intros [= <-]. by eapply wait_checked_plain.
    + rewrite lookup_insert_ne by done. apply Hfin.
Qed.



(** ** A lock that is never released *)

Lemma start_script_blocked t pk worktree branch l (temp_dirs : TempDirs) s :
  supports_commit true pk = true →
  temp_dirs !! t = Some (worktree, branch, l) →
  l ∈ held s →
  start_script t pk true temp_dirs s = (Block, s).
Proof.
  intros Hp Ht Hl. unfold start_script, run_update_script_begin.
  rewrite Hp, Ht. rewrite !bind_unfold. unfold lock_acquire.
  by rewrite bool_decide_eq_true_2.
Qed.

Lemma transition_stuck_on W keep_going (temp_dirs : TempDirs) i p l worktree
    branch s s' :
  temp_dirs !! thread_name i = Some (worktree, branch, l) →
  stuck_on i p l s →
  transition W true keep_going temp_dirs s s' →
  stuck_on i p l s'.
Proof.
  intros Htd [Hleave Hw (pk0 & Hpk0 & Hc0) Hheld] Ht.
  destruct Ht as [s Hl Hlt|s j p0 rest Hj Hq|s j p0 pk pk' cwd st Hj Hpk E
                 |s j p0 pk e st Hj Hpk E|s j p0 cwd pk r st Hj Hpk E
                 |s p0 future pk r st Hl Hs Hy Hf Hpk E Hr];
    try done.
  - split; simpl; try done; [|by eexists].
    rewrite list_lookup_insert_ne; [done|congruence].
  - destruct (decide (j = i)) as [->|Hne].
    { assert (p0 = p) as -> by congruence. assert (pk = pk0) as -> by congruence.
      by rewrite (start_script_blocked _ _ _ _ _ _ _ Hc0 Htd Hheld) in E. }
    pose proof (start_script_cases _ _ _ _ _ _ _ E) as (Hsub & Hfeat).
    split; simpl.
    + done.
    + by rewrite list_lookup_insert_ne.
    + destruct (decide (p0 = p)) as [->|Hp].
      * exists pk'. split; [apply list_lookup_insert_eq; by eapply lookup_lt_Some|].
        assert (pk = pk0) as -> by congruence.
        revert Hc0. unfold supports_commit. by rewrite Hfeat.
      * exists pk0. by rewrite list_lookup_insert_ne.
    + set_solver.
  - destruct (decide (j = i)) as [->|Hne].
    { assert (p0 = p) as -> by congruence. assert (pk = pk0) as -> by congruence.
      by rewrite (start_script_blocked _ _ _ _ _ _ _ Hc0 Htd Hheld) in E. }
    pose proof (start_script_cases _ _ _ _ _ _ _ E) as (Hsub & _).
    split; simpl; [done|by rewrite list_lookup_insert_ne|by eexists|set_solver].
  - apply wait_checked_store in E as ->.
    split; simpl; [done| |by eexists|done].
    rewrite list_lookup_insert_ne; [done|congruence].
Qed.

(** X12.  Once the loop of line 102 has been left, no lock is released any
    more.  So if at that moment a worker has taken a package with the commit
    feature and the lock of its worktree is held, it waits for the lock for
    ever, however the threads are scheduled: the executor never finishes its
    shutdown and the [with] block is never left. *)
Theorem abandoned_lock_hangs_the_shutdown W keep_going (temp_dirs : TempDirs)
    i p pk l worktree branch s sched :
  leaving s ≠ None →
  workers s !! i = Some (Taken p) →
  pkgs s !! p = Some pk →
  supports_commit true pk = true →
  temp_dirs !! thread_name i = Some (worktree, branch, l) →
  l ∈ held (sto s) →
  pool_done (exec W true keep_going temp_dirs sched s) = None.
Proof.
  intros Hleave Hw Hpk Hc Htd Hheld.
  assert (stuck_on i p l (exec W true keep_going temp_dirs sched s)) as [_ Hw' _ _].
  { apply (exec_invariant W true keep_going temp_dirs (stuck_on i p l)).
    - intros s1 s2 H1 Ht. by eapply transition_stuck_on.
    - split; [done|done|by exists pk|done]. }
  destruct (pool_done _) as [pending|] eqn:Hd; [|done].
  apply pool_done_drained in Hd as [_ Hidle].
  by apply Hidle in Hw'.
Qed.

Lemma abandoned_lock_hangs_the_shutdown_witness :
  pool_done
    (exec (sample_world [] script_fails) true true
       {[ thread_name 0 := ("/wt", "update-x", 0) ]} (sequential 2)
       (exec (sample_world [] script_fails) true true
          {[ thread_name 0 := ("/wt", "update-x", 0) ]}
          [Submit; Submit; Worker 0; Worker 0; Worker 0; Merge 0; Worker 0]
          (pool_init (Store [] ∅) [pkg_fail_commit; pkg_two] 1)))
  = None.
Proof.
  refine (abandoned_lock_hangs_the_shutdown (sample_world [] script_fails) true
            {[ thread_name 0 := ("/wt", "update-x", 0) ]} 0 1 pkg_two 0
            "/wt" "update-x" _ (sequential 2) _ _ _ _ _ _).
  - vm_compute. discriminate.
  - vm_compute. reflexivity.
  - vm_compute. reflexivity.
  - reflexivity.
  - reflexivity.
  - vm_compute. reflexivity.
Defined.

(** ** main *)

(** X13.  A pool size that is not positive is refused after the operator
    has confirmed: [ThreadPoolExecutor] raises [ValueError] when the [with]
    statement is entered, before its body runs, so that no worktree is
    created even with commit integration, no package is dispatched, and the
    process ends with status 1. *)
Theorem empty_pool_is_refused W max_workers keep_going commit packages sched
    path loaded :
  argv W !! 1 = Some path →
  read_packages W path = Some loaded →
  stdin_line W = Some "" →
  (max_workers ≤ 0)%Z →
  main W max_workers keep_going commit packages sched (Store [] ∅)
  = Run (Store (announcement loaded ++ [Eprint ""; Eprint "Running update for:"])
               ∅)
        (Some ValueError) ∅ None
  ∧ script W max_workers keep_going commit packages sched
    = Some (Exit (announcement loaded ++ [Eprint ""; Eprint "Running update for:"])
                 1 []).
Proof.
  intros Ha Hr Hl Hm.
  assert (main W max_workers keep_going commit packages sched (Store [] ∅)
          = Run (Store (announcement loaded
                          ++ [Eprint ""; Eprint "Running update for:"]) ∅)
                (Some ValueError) ∅ None) as E.
  { unfold main.
    rewrite (main_prelude_read W packages path loaded "" _ Ha Hr Hl).
    rewrite bool_decide_eq_true_2 by done. unfold main_block.
    by rewrite bool_decide_eq_true_2. }
  split; [done|]. unfold script. by rewrite E.
Qed.

Lemma empty_pool_is_refused_witness :
  main (sample_world [pkg_ok] script_fails) 0 false true [] (sequential 1)
    (Store [] ∅)
  = Run (Store (announcement [pkg_ok] ++ [Eprint ""; Eprint "Running update for:"])
               ∅)
        (Some ValueError) ∅ None
  ∧ script (sample_world [pkg_ok] script_fails) 0 false true [] (sequential 1)
    = Some (Exit (announcement [pkg_ok]
                    ++ [Eprint ""; Eprint "Running update for:"]) 1 []).
Proof.
  refine (empty_pool_is_refused (sample_world [pkg_ok] script_fails) 0 false true
            [] (sequential 1) "packages.json" [pkg_ok] _ _ _ _).
  - reflexivity.
  - reflexivity.
  - reflexivity.
  - lia.
Defined.

(** ** One package per worktree *)

Lemma has_package_insert_idle s i0 i p :
  workers s !! i0 = Some Idle →
  ∀ p0, (<[i0 := Taken p0]> (workers s) !! i = Some (Taken p)
         ∨ ∃ cwd, <[i0 := Taken p0]> (workers s) !! i = Some (Running p cwd)) →
        (i = i0 ∧ p = p0) ∨ (i ≠ i0 ∧ has_package s i p).
Proof.
  intros Hi0 p0 H. destruct (decide (i = i0)) as [->|Hne].
  - left. split; [done|].
    pose proof (lookup_lt_Some _ _ _ Hi0) as Hlt.
    rewrite list_lookup_insert_eq in H by done.
    destruct H as [[= ->]|[cwd [=]]]. done.
  - right. split; [done|].
    rewrite list_lookup_insert_ne in H by done. exact H.
Qed.

Lemma transition_places W commit keep_going (temp_dirs : TempDirs) s s' :
  places s → transition W commit keep_going temp_dirs s s' → places s'.
Proof.
  intros [Hnd Hq Hw Ht Hf Hy] Hstep.
  destruct Hstep as [s Hl Hlt|s i0 p0 rest Hi Hqu|s i0 p0 pk pk' cwd st Hi Hpk E
                    |s i0 p0 pk e st Hi Hpk E|s i0 p0 cwd pk r st Hi Hpk E
                    |s p0 future pk r st Hl Hs Hyi Hfi Hpk E Hr].
  - (* submit *)
    assert (submitted s ∉ queue s) as Hfresh.
    { intros Hin. apply Hq in Hin as [Hlt' _]. lia. }
    split; simpl.
    + apply NoDup_app. split; [done|]. split; [|apply NoDup_singleton].
      intros x Hx ->%list_elem_of_singleton. done.
    + intros p [Hp | ->%list_elem_of_singleton]%elem_of_app.
      * destruct (Hq p Hp) as (H1 & H2 & H3). split; [lia|done].
      * split; [lia|]. split.
        -- intros i Hhas. apply Ht in Hhas as [_ Hlt']. lia.
        -- destruct (finished s !! submitted s) eqn:Hfin; [|done].
           assert (submitted s < submitted s); [|lia]. apply Hf. by eexists.
    + exact Hw.
    + intros i p Hhas. destruct (Ht i p Hhas). split; [done|lia].
    + intros p Hp. apply Hf in Hp. lia.
    + exact Hy.
  - (* take *)
    rewrite Hqu in Hnd, Hq. apply NoDup_cons in Hnd as [Hp0 Hnd].
    destruct (Hq p0) as (Hlt0 & Hno0 & Hfin0); [by left|].
    split; simpl.
    + done.
    + intros p Hp. destruct (Hq p) as (H1 & H2 & H3); [by right|].
      split; [done|]. split; [|done].
      intros i Hhas.
      apply (has_package_insert_idle s i0 i p Hi p0) in Hhas
        as [[-> ->]|[_ Hhas]]; [done|by eapply H2].
    + intros i j p Hi' Hj'.
      destruct (has_package_insert_idle s i0 i p Hi p0 Hi') as [[Ei Ep]|[Hne Hi'']];
        destruct (has_package_insert_idle s i0 j p Hi p0 Hj')
          as [[Ej Ep']|[Hnj Hj'']].
      * congruence.
      * subst. by destruct (Hno0 j).
      * subst. by destruct (Hno0 i).
      * by eapply Hw.
    + intros i p Hhas.
      apply (has_package_insert_idle s i0 i p Hi p0) in Hhas
        as [[-> ->]|[_ Hhas]]; [done|by apply Ht in Hhas].
    + exact Hf.
    + exact Hy.
  - (* start *)
    assert (∀ i p, has_package
                     (Pool st (<[p0:=pk']> (pkgs s)) (submitted s) (queue s)
                        (<[i0:=Running p0 cwd]> (workers s)) (finished s)
                        (yielded s) (leaving s)) i p → has_package s i p) as Hsame.
    { intros i p [H|[cwd' H]]; simpl in H.
      - destruct (decide (i = i0)) as [->|Hne].
        + rewrite list_lookup_insert_eq in H by by eapply lookup_lt_Some. done.
        + rewrite list_lookup_insert_ne in H by done. by left.
      - destruct (decide (i = i0)) as [->|Hne].
        + rewrite list_lookup_insert_eq in H by by eapply lookup_lt_Some.
          injection H as -> _. by left.
        + rewrite list_lookup_insert_ne in H by done. right. by eexists. }
    split; simpl; try done.
    + intros p Hp. destruct (Hq p Hp) as (H1 & H2 & H3).
      split; [done|]. split; [|done]. intros i Hhas%Hsame. by eapply H2.
    + intros i j p Hi'%Hsame Hj'%Hsame. by eapply Hw.
    + intros i p Hhas%Hsame. by apply (Ht i).
  - (* start raises *)
    assert (∀ i p, has_package
                     (Pool st (pkgs s) (submitted s) (queue s)
                        (<[i0:=Idle]> (workers s)) (<[p0:=Raise e]> (finished s))
                        (yielded s) (leaving s)) i p →
                   i ≠ i0 ∧ has_package s i p) as Hsame.
    { intros i p H. destruct (decide (i = i0)) as [->|Hne].
      - destruct H as [H|[cwd' H]]; simpl in H;
          rewrite list_lookup_insert_eq in H by (by eapply lookup_lt_Some); done.
      - split; [done|].
        destruct H as [H|[cwd' H]]; simpl in H;
          rewrite list_lookup_insert_ne in H by done; [by left|right; by eexists]. }
    assert (has_package s i0 p0) as Hhas0 by by left.
    split; simpl; try done.
    + intros p Hp. destruct (Hq p Hp) as (H1 & H2 & H3).
      split; [done|]. split; [by intros i [_ Hhas]%Hsame; eapply H2|].
      rewrite lookup_insert_ne; [done|]. intros <-. by eapply H2.
    + intros i j p [_ Hi']%Hsame [_ Hj']%Hsame. by eapply Hw.
    + intros i p [Hne Hhas]%Hsame. destruct (Ht i p Hhas). split; [|done].
      rewrite lookup_insert_ne; [done|]. intros <-. apply Hne. by eapply Hw.
    + intros p [Hp|Hp]%lookup_insert_is_Some'; [|by apply Hf].
      subst. by destruct (Ht _ _ Hhas0).
    + intros p Hp. apply lookup_insert_is_Some'. right. by apply Hy.
  - (* finish *)
    assert (∀ i p, has_package
                     (Pool st (pkgs s) (submitted s) (queue s)
                        (<[i0:=Idle]> (workers s)) (<[p0:=r]> (finished s))
                        (yielded s) (leaving s)) i p →
                   i ≠ i0 ∧ has_package s i p) as Hsame.
    { intros i p H. destruct (decide (i = i0)) as [->|Hne].
      - destruct H as [H|[cwd' H]]; simpl in H;
          rewrite list_lookup_insert_eq in H by (by eapply lookup_lt_Some); done.
      - split; [done|].
        destruct H as [H|[cwd' H]]; simpl in H;
          rewrite list_lookup_insert_ne in H by done; [by left|right; by eexists]. }
    assert (has_package s i0 p0) as Hhas0 by (right; by eexists).
    split; simpl; try done.
    + intros p Hp. destruct (Hq p Hp) as (H1 & H2 & H3).
      split; [done|]. split; [by intros i [_ Hhas]%Hsame; eapply H2|].
      rewrite lookup_insert_ne; [done|]. intros <-. by eapply H2.
    + intros i j p [_ Hi']%Hsame [_ Hj']%Hsame. by eapply Hw.
    + intros i p [Hne Hhas]%Hsame. destruct (Ht i p Hhas). split; [|done].
      rewrite lookup_insert_ne; [done|]. intros <-. apply Hne. by eapply Hw.
    + intros p [Hp|Hp]%lookup_insert_is_Some'; [|by apply Hf].
      subst. by destruct (Ht _ _ Hhas0).
    + intros p Hp. apply lookup_insert_is_Some'. right. by apply Hy.
  - (* merge *)
    split; simpl; try done.
    intros p [->%elem_of_singleton|Hp]%elem_of_union; [by eexists|by apply Hy].
Qed.

Lemma merge_try_held W pk future commit (temp_dirs : TempDirs) s r lock s1 :
  merge_try W pk future commit temp_dirs s = (r, lock, s1) →
  held s1 = held s
  ∧ ∀ l, lock = Some l →
         supports_commit commit pk = true
         ∧ ∃ t worktree branch,
             thread pk = Some t ∧ temp_dirs !! t = Some (worktree, branch, l).
Proof.
  unfold merge_try. destruct future as [execution|e|];
    [|by intros [= <- <- <-]|by intros [= <- <- <-]].
  destruct (supports_commit commit pk) eqn:Hp.
  - destruct (thread pk) as [t|] eqn:Ht; [|by intros [= <- <- <-]].
    destruct (temp_dirs !! t) as [[[worktree branch] l]|] eqn:Htd;
      [|by intros [= <- <- <-]].
    destruct ((commit_changes W worktree branch execution ;;
               eprint (" - " +:+ name pk +:+ ": DONE.")) s) as [r0 s0] eqn:E0.
    intros [= <- <- <-].
    assert (obeys (λ _, True) (λ _, True)
              (commit_changes W worktree branch execution ;;
               eprint (" - " +:+ name pk +:+ ": DONE."))) as Hob.
    { apply obeys_bind.
      - eapply obeys_mono; [| |apply obeys_commit_changes]; done.
      - intros _. by apply obeys_emit. }
    destruct (Hob _ _ _ E0) as (_ & Hh & _). split; [done|].
    intros l' [= <-]. split; [done|]. by eexists _, _, _.
  - cbn. by intros [= <- <- <-].
Qed.

(** What [merge_changes] does to the locks: nothing, or it releases the
    lock of the thread recorded in the package, which was held. *)
Lemma merge_changes_held W pk future commit keep_going (temp_dirs : TempDirs)
    s r st :
  merge_changes W pk future commit keep_going temp_dirs s = (r, st) →
  held st = held s
  ∨ (supports_commit commit pk = true
     ∧ ∃ t worktree branch l,
         thread pk = Some t
         ∧ temp_dirs !! t = Some (worktree, branch, l)
         ∧ l ∈ held s
         ∧ held st = held s ∖ {[l]}).
Proof.
  unfold merge_changes.
  destruct (merge_try W pk future commit temp_dirs s) as [[r0 lock] s1] eqn:Et.
  destruct (merge_try_held _ _ _ _ _ _ _ _ _ Et) as [H1 Hlock].
  destruct (match r0 with
            | Raise (CalledProcessError _ _ output) =>
                merge_except W pk output keep_going s1
            | _ => (r0, s1)
            end) as [r' s2] eqn:Ee.
  assert (held s2 = held s1) as H2.
  { destruct r0 as [[]|e0|]; try (by injection Ee as <- <-).
    destruct e0; try (by injection Ee as <- <-).
    by destruct (obeys_merge_except W (λ _, True) _ _ _
                   ltac:(done) ltac:(done) _ _ _ Ee) as (_ & H & _). }
  unfold merge_finally. destruct (supports_commit commit pk) eqn:Hp.
  - destruct lock as [l|]; [|intros [= <- <-]; left; congruence].
    destruct (Hlock l eq_refl) as (_ & t & worktree & branch & Ht & Htd).
    unfold lock_release. case_bool_decide as Hl.
    + intros [= <- <-]. right. split; [done|]. exists t, worktree, branch, l.
      cbn [held]. split_and!; [done|done|congruence|congruence].
    + intros [= <- <-]. left. congruence.
  - intros [= <- <-]. left. congruence.
Qed.

Lemma start_script_ret i pk pk' cwd (temp_dirs : TempDirs) worktree branch s st :
  temp_dirs !! thread_name i = Some (worktree, branch, i) →
  start_script (thread_name i) pk true temp_dirs s = (Ret (pk', cwd), st) →
  supportedFeatures pk' = supportedFeatures pk
  ∧ if supports_commit true pk
    then pk' = set_thread pk (thread_name i)
         ∧ (i ∉ held s) ∧ held st = {[i]} ∪ held s
    else pk' = pk ∧ held st = held s.
Proof.
  intros Htd. unfold start_script, run_update_script_begin, popen, eprint, emit.
  rewrite !bind_unfold.
  destruct (supports_commit true pk).
  - rewrite Htd. rewrite bind_unfold. unfold lock_acquire.
    case_bool_decide; [done|]. by intros [= <- <- <-].
  - by intros [= <- <- <-].
Qed.

Lemma make_temp_dirs_serves W n s (temp_dirs : TempDirs) stack s' :
  make_temp_dirs W (seq 0 n) [] ∅ s = (Ret temp_dirs, stack, s') →
  serves n temp_dirs.
Proof.
  intros Hm.
  destruct (make_temp_dirs_lookup W (seq 0 n) [] ∅ temp_dirs stack s s'
              (NoDup_seq 0 n) Hm) as [Hin Hout].
  split.
  - intros i Hi. eexists _, _. apply Hin, elem_of_seq. lia.
  - intros k Hk.
    destruct (decide (Exists (λ i, k = thread_name i) (seq 0 n))) as [He|Hne].
    + apply Exists_exists in He as (i & Hi%elem_of_seq & ->).
      exists i. split; [lia|done].
    + rewrite Hout in Hk; [by rewrite lookup_empty in Hk; destruct Hk|].
      intros i Hi <-. apply Hne, Exists_exists. by exists i.
Qed.

Lemma exclusive_init s packages n : exclusive n (pool_init s packages n).
Proof.
  split; simpl.
  - by rewrite length_replicate.
  - split; simpl; try done.
    + apply NoDup_nil_2.
    + intros p Hp. by apply elem_of_nil in Hp.
    + intros i j p [H|[cwd H]]; apply lookup_replicate in H as [[=] _].
    + intros i p [H|[cwd H]]; apply lookup_replicate in H as [[=] _].
    + intros p [x Hx]. by rewrite lookup_empty in Hx.
  - intros i p [_ [[cwd H]|[[x Hx] _]]]; simpl in *.
    + apply lookup_replicate in H as [[=] _].
    + by rewrite lookup_empty in Hx.
  - intros i p q [_ [[cwd H]|[[x Hx] _]]]; simpl in *.
    + apply lookup_replicate in H as [[=] _].
    + by rewrite lookup_empty in Hx.
Qed.

Lemma transition_exclusive W keep_going (temp_dirs : TempDirs) n s s' :
  serves n temp_dirs →
  exclusive n s →
  transition W true keep_going temp_dirs s s' →
  exclusive n s'.
Proof.
  intros [Hthread Hkey] [Hlen Hpl Hheld Halone] Hstep.
  pose proof (transition_places _ _ _ _ _ _ Hpl Hstep) as Hpl'.
  destruct Hstep as [s Hl Hlt|s i0 p0 rest Hi Hqu|s i0 p0 pk pk' cwd st Hi Hpk E
                    |s i0 p0 pk e st Hi Hpk E|s i0 p0 cwd pk r st Hi Hpk E
                    |s p0 future pk r st Hl Hs Hyi Hfi Hpk E Hr].
  - (* submit *)
    split; [done|done|..].
    + intros i p Hin. by apply Hheld.
    + intros i p q Hp Hq. by eapply Halone.
  - (* take *)
    assert (∀ i p, inside
                     (Pool (sto s) (pkgs s) (submitted s) rest
                        (<[i0:=Taken p0]> (workers s)) (finished s) (yielded s)
                        (leaving s)) i p → inside s i p) as Hsame.
    { intros i p [Hc [[cwd H]|H]]; (split; [done|]); [left|by right].
      simpl in H. destruct (decide (i = i0)) as [->|Hne].
      - rewrite list_lookup_insert_eq in H by by eapply lookup_lt_Some. done.
      - rewrite list_lookup_insert_ne in H by done. by eexists. }
    split; [by simpl; rewrite length_insert|done|..].
    + intros i p Hin%Hsame. by apply Hheld.
    + intros i p q Hp%Hsame Hq%Hsame. by eapply Halone.
  - (* start *)
    pose proof (lookup_lt_Some _ _ _ Hi) as Hi0. rewrite Hlen in Hi0.
    destruct (Hthread i0 Hi0) as (worktree & branch & Htd).
    destruct (start_script_ret _ _ _ _ _ _ _ _ _ Htd E) as [Hfeat Hcase].
    assert (has_package s i0 p0) as Hhas0 by by left.
    assert (held (sto s) ⊆ held st) as Hsub.
    { destruct (supports_commit true pk).
      - destruct Hcase as (_ & _ & ->). intros x Hx. by apply elem_of_union_r.
      - by destruct Hcase as (_ & ->). }
    assert (∀ i p, inside
                     (Pool st (<[p0:=pk']> (pkgs s)) (submitted s) (queue s)
                        (<[i0:=Running p0 cwd]> (workers s)) (finished s)
                        (yielded s) (leaving s)) i p →
                   (i = i0 ∧ p = p0 ∧ supports_commit true pk = true)
                   ∨ (p ≠ p0 ∧ inside s i p)) as Hsplit.
    { intros i p [(pkp & Hpkp & Hcp) Hwhere]. simpl in Hpkp.
      destruct (decide (p = p0)) as [->|Hp].
      - rewrite list_lookup_insert_eq in Hpkp by by eapply lookup_lt_Some.
        injection Hpkp as <-.
        assert (supports_commit true pk = true) as Hc.
        { revert Hcp. unfold supports_commit. by rewrite Hfeat. }
        left. split; [|done].
        destruct Hwhere as [[cwd' H]|[[x Hx] _]]; simpl in *.
        + destruct (decide (i = i0)) as [->|Hne]; [done|].
          rewrite list_lookup_insert_ne in H by done.
          eapply (pl_worker _ Hpl); [|exact Hhas0]. right. by eexists.
        + destruct (pl_taken _ Hpl _ _ Hhas0) as [Hnone _]. congruence.
      - right. split; [done|].
        rewrite list_lookup_insert_ne in Hpkp by done.
        split; [by exists pkp|].
        destruct Hwhere as [[cwd' H]|(Hf & Hy & Ht)]; simpl in *.
        + left. destruct (decide (i = i0)) as [->|Hne].
          * rewrite list_lookup_insert_eq in H by by eapply lookup_lt_Some.
            congruence.
          * rewrite list_lookup_insert_ne in H by done. by eexists.
        + right. split; [done|]. split; [done|].
          revert Ht. unfold thread_of. simpl.
          by rewrite list_lookup_insert_ne by done. }
    split; [by simpl; rewrite length_insert|done|..].
    + intros i p [(-> & -> & Hc)|[Hp Hin]]%Hsplit.
      * rewrite Hc in Hcase. destruct Hcase as (-> & Hfree & Hst).
        split; [simpl; rewrite Hst; apply elem_of_union_l, elem_of_singleton_2; done|].
        unfold thread_of. simpl.
        rewrite list_lookup_insert_eq by by eapply lookup_lt_Some. done.
      * destruct (Hheld i p Hin) as [Hh Ht]. split; [by apply Hsub|].
        revert Ht. unfold thread_of. simpl.
        by rewrite list_lookup_insert_ne by done.
    + intros i p q [(-> & -> & Hc)|[Hp Hinp]]%Hsplit
                   [(Ei & -> & Hc')|[Hq Hinq]]%Hsplit; try done.
      * rewrite Hc in Hcase. destruct Hcase as (_ & Hfree & _).
        by destruct (Hheld _ _ Hinq).
      * subst i. rewrite Hc' in Hcase. destruct Hcase as (_ & Hfree & _).
        by destruct (Hheld _ _ Hinp).
      * by eapply Halone.
  - (* start raises *)
    pose proof (lookup_lt_Some _ _ _ Hi) as Hi0. rewrite Hlen in Hi0.
    destruct (Hthread i0 Hi0) as (worktree & branch & Htd).
    apply start_script_cases in E as (_ & _ & Hnone). congruence.
  - (* finish *)
    apply wait_checked_store in E as ->.
    assert (has_package s i0 p0) as Hhas0 by (right; by eexists).
    assert (∀ i p, inside
                     (Pool (sto s) (pkgs s) (submitted s) (queue s)
                        (<[i0:=Idle]> (workers s)) (<[p0:=r]> (finished s))
                        (yielded s) (leaving s)) i p → inside s i p) as Hsame.
    { intros i p [Hc Hwhere]. split; [done|].
      destruct Hwhere as [[cwd' H]|(Hf & Hy & Ht)]; simpl in *.
      - left. destruct (decide (i = i0)) as [->|Hne].
        + rewrite list_lookup_insert_eq in H by by eapply lookup_lt_Some. done.
        + rewrite list_lookup_insert_ne in H by done. by eexists.
      - destruct (decide (p = p0)) as [->|Hp].
        + assert (inside s i0 p0) as Hin0.
          { split; [done|]. left. by eexists. }
          destruct (Hheld _ _ Hin0) as [_ Ht0].
          assert (i = i0) as ->.
          { apply thread_name_inj. unfold thread_of in *. simpl in *. congruence. }
          left. by eexists.
        + right. rewrite lookup_insert_ne in Hf by done. done. }
    split; [by simpl; rewrite length_insert|done|..].
    + intros i p Hin%Hsame. by apply Hheld.
    + intros i p q Hp%Hsame Hq%Hsame. by eapply Halone.
  - (* merge *)
    assert (∀ i p, inside
                     (Pool st (pkgs s) (submitted s) (queue s) (workers s)
                        (finished s) ({[p0]} ∪ yielded s)
                        match r with Raise e => Some e | _ => None end) i p →
                   p ≠ p0 ∧ inside s i p) as Hsame.
    { intros i p [Hc Hwhere].
      destruct Hwhere as [[cwd' H]|(Hf & Hy & Ht)]; simpl in *.
      - split.
        + intros ->. assert (has_package s i p0) as Hhas by (right; by eexists).
          destruct (pl_taken _ Hpl _ _ Hhas) as [Hnone _]. congruence.
        + split; [done|]. left. by eexists.
      - split; [intros ->; apply Hy, elem_of_union_l, elem_of_singleton_2; done|].
        split; [done|]. right.
        split; [done|]. split; [|done].
        intros Hin. by apply Hy, elem_of_union_r. }
    split; [done|done|..].
    + intros i p [Hp Hin]%Hsame. destruct (Hheld i p Hin) as [Hh Ht].
      split; [|done]. simpl.
      destruct (merge_changes_held _ _ _ _ _ _ _ _ _ E)
        as [->|(Hc & t & worktree & branch & l & Hth & Htd & Hlh & ->)]; [done|].
      apply elem_of_difference. split; [done|].
      intros ->%elem_of_singleton_1.
      destruct (Hkey t) as (l' & Hl' & ->); [by eexists|].
      destruct (Hthread l' Hl') as (worktree' & branch' & Htd').
      assert (l' = l) as -> by congruence.
      assert (inside s l p0) as Hin0.
      { split; [by exists pk|]. right. split; [by eexists|]. split; [done|].
        unfold thread_of. by rewrite Hpk. }
      apply Hp. by eapply Halone.
    + intros i p q [_ Hp]%Hsame [_ Hq]%Hsame. by eapply Halone.
Qed.

(** X14.  With commit integration, whatever the schedule of the threads:
    from the start of a committing package's update script on a thread
    until that package has been merged, the thread's lock is held and no
    other committing package is in the same worktree, running or waiting
    for its merge. *)
Theorem one_package_inside_a_worktree W max_workers keep_going packages sched
    pool i p q :
  dispatch (main W max_workers keep_going true packages sched (Store [] ∅))
  = Some pool →
  inside pool i p →
  inside pool i q →
  p = q ∧ i ∈ held (sto pool).
Proof.
  unfold main.
  destruct (main_prelude W packages (Store [] ∅)) as [[loaded|e|] s]; [|done|done].
  unfold main_block. case_bool_decide; [done|].
  destruct (make_temp_dirs W _ [] ∅ s) as [[r stack] s1] eqn:Em.
  destruct r as [temp_dirs|e|]; [| |done].
  2: { by destruct (exit_stack W stack (Some e) s1). }
  apply make_temp_dirs_serves in Em.
  assert (exclusive (Z.to_nat max_workers)
            (exec W true keep_going temp_dirs sched
               (pool_init s1 loaded (Z.to_nat max_workers))))
    as [_ _ Hheld Halone].
  { apply (exec_invariant W true keep_going temp_dirs
             (exclusive (Z.to_nat max_workers))).
    - intros s2 s3 H2 Ht. by eapply transition_exclusive.
    - apply exclusive_init. }
  intros Hd Hp Hq.
  assert (pool = exec W true keep_going temp_dirs sched
                   (pool_init s1 loaded (Z.to_nat max_workers))) as ->.
  { revert Hd. destruct (pool_done _) as [pending|].
    - destruct (exit_stack W stack pending _) as [[e1|] s2].
      + by intros [= <-].
      + destruct (main_epilogue s2) as [[] s3]; by intros [= <-].
    - by intros [= <-]. }
  split; [by eapply Halone|]. by destruct (Hheld _ _ Hp).
Qed.

Lemma one_package_inside_a_worktree_witness :
  ∃ pool,
    dispatch (main (sample_world [pkg_two; pkg_two] script_fails) 1 true true []
                [Submit; Submit; Worker 0; Worker 0] (Store [] ∅)) = Some pool
    ∧ inside pool 0 0
    ∧ 0 = 0 ∧ 0 ∈ held (sto pool).
Proof.
  eexists.
  split; [vm_compute; reflexivity|].
  match goal with |- ?P ∧ _ => assert P as Hin end.
  { split.
    - eexists. split; [vm_compute; reflexivity|reflexivity].
    - left. eexists. vm_compute. reflexivity. }
  split; [exact Hin|].
  refine (one_package_inside_a_worktree
            (sample_world [pkg_two; pkg_two] script_fails) 1 true []
            [Submit; Submit; Worker 0; Worker 0] _ 0 0 0 _ Hin Hin).
  vm_compute. reflexivity.
Defined.

(** ** The exit status *)

Lemma make_worktree_exit_status W c pending s e s' :
  (∀ e0, pending = Some e0 → status_one e0) →
  make_worktree_exit W c pending s = (Some e, s') →
  status_one e.
Proof.
  intros Hp. unfold make_worktree_exit. destruct pending as [e0|].
  - cbn [emit]. intros [= <- <-]. by apply Hp.
  - destruct ((subprocess_run W Git ["git"; "worktree"; "remove"; target_directory c]
                 false None ;;
               subprocess_run W Git ["git"; "branch"; "-D"; branch_name c]
                 false None) s) as [r s1] eqn:E.
    assert (obeys (λ _, True) status_one
              (subprocess_run W Git
                 ["git"; "worktree"; "remove"; target_directory c] false None ;;
               subprocess_run W Git ["git"; "branch"; "-D"; branch_name c]
                 false None)) as Hob.
    { apply obeys_bind; [|intros _]; by apply obeys_subprocess_run. }
    destruct (Hob _ _ _ E) as (_ & _ & _ & Hr).
    cbn [emit]. destruct r as [x|e1|]; [done| |done].
    intros [= <- <-]. by apply Hr.
Qed.

Lemma exit_stack_status W stack pending s e s' :
  (∀ e0, pending = Some e0 → status_one e0) →
  exit_stack W stack pending s = (Some e, s') →
  status_one e.
Proof.
  revert pending s. induction stack as [|c stack IH]; intros pending s Hp.
  - simpl. intros [= -> <-]. by apply Hp.
  - cbn [exit_stack].
    destruct (make_worktree_exit W c pending s) as [pending' s1] eqn:E.
    apply IH. intros e0 ->. by eapply make_worktree_exit_status.
Qed.

Lemma make_worktree_enter_status W i s e s' :
  make_worktree_enter W i s = (Raise e, s') → status_one e.
Proof.
  unfold make_worktree_enter.
  destruct ((emit (MkTemp _) ;; subprocess_run W Git _ false None) s)
    as [r s1] eqn:E.
  assert (obeys (λ _, True) status_one
            (emit (MkTemp (tmp_root W +:+ "/" +:+ tmp_name W i)) ;;
             subprocess_run W Git
               ["git"; "worktree"; "add"; "-b"; "update-" +:+ tmp_name W i;
                (tmp_root W +:+ "/" +:+ tmp_name W i) +:+ "/nixpkgs"]
               false None)) as Hob.
  { apply obeys_bind; [by apply obeys_emit|intros _].
    by apply obeys_subprocess_run. }
  destruct (Hob _ _ _ E) as (_ & _ & _ & Hr).
  destruct r as [c|e1|]; [done| |done].
  rewrite bind_unfold. cbn [emit raise]. intros [= <- <-]. by apply Hr.
Qed.

Lemma make_temp_dirs_status W indices stack (temp_dirs : TempDirs) s e stack' s' :
  make_temp_dirs W indices stack temp_dirs s = (Raise e, stack', s') →
  status_one e.
Proof.
  revert stack temp_dirs s.
  induction indices as [|i indices IH]; intros stack temp_dirs s; [done|].
  cbn [make_temp_dirs].
  destruct (make_worktree_enter W i s) as [[c|e1|] s1] eqn:E.
  - apply IH.
  - intros [= <- <- <-]. by eapply make_worktree_enter_status.
  - done.
Qed.

Lemma merge_changes_status W p future commit keep_going (temp_dirs : TempDirs)
    s e st :
  (∀ e', future = Raise e' → status_one e') →
  merge_changes W p future commit keep_going temp_dirs s = (Raise e, st) →
  status_one e.
Proof.
  intros Hf. unfold merge_changes.
  destruct (merge_try W p future commit temp_dirs s) as [[r lock] s1] eqn:Et.
  assert (∀ e', r = Raise e' → status_one e') as Hr.
  { revert Et. unfold merge_try. destruct future as [execution|e0|].
    - destruct (supports_commit commit p).
      + destruct (thread p) as [t|]; [|by intros [= <- <- <-] ? [= <-]].
        destruct (temp_dirs !! t) as [[[worktree branch] l]|];
          [|by intros [= <- <- <-] ? [= <-]].
        destruct ((commit_changes W worktree branch execution ;;
                   eprint (" - " +:+ name p +:+ ": DONE.")) s) as [r0 s0] eqn:E0.
        intros [= <- <- <-].
        assert (obeys (λ _, True) status_one
                  (commit_changes W worktree branch execution ;;
                   eprint (" - " +:+ name p +:+ ": DONE."))) as Hob.
        { apply obeys_bind.
          - eapply obeys_mono; [| |apply obeys_commit_changes_footprint]; [done|].
            by intros [| | | | | | | | | | | |]; try done; intros [].
          - intros _. by apply obeys_emit. }
        by destruct (Hob _ _ _ E0) as (_ & _ & _ & H).
      + by intros [= <- <- <-].
    - intros [= <- <- <-]. intros e' [= <-]. by apply Hf.
    - by intros [= <- <- <-]. }
  destruct (match r with
            | Raise (CalledProcessError _ _ output) =>
                merge_except W p output keep_going s1
            | _ => (r, s1)
            end) as [r' s2] eqn:Ee.
  assert (∀ e', r' = Raise e' → status_one e') as Hr'.
  { destruct r as [[]|e0|]; try (by injection Ee as <- <-).
    destruct e0; try (by injection Ee as <- <-).
    revert Ee. unfold merge_except, eprint. rewrite !bind_unfold. cbn [emit].
    destruct output as [captured|]; [|by intros [= <- <-] ? [= <-]].
    destruct (decode_utf8 W captured); [|by intros [= <- <-] ? [= <-]].
    rewrite !bind_unfold. cbn [emit].
    destruct keep_going; by intros [= <- <-] ? [= <-]. }
  unfold merge_finally. destruct (supports_commit commit p).
  - destruct lock as [l|]; [|by intros [= <- <-]].
    unfold lock_release. case_bool_decide.
    + intros [= -> <-]. by apply Hr'.
    + by intros [= <- <-].
  - intros [= -> <-]. by apply Hr'.
Qed.

Lemma start_script_status t pk commit (temp_dirs : TempDirs) s e st :
  start_script t pk commit temp_dirs s = (Raise e, st) → status_one e.
Proof.
  unfold start_script, run_update_script_begin, popen, eprint, emit.
  rewrite !bind_unfold.
  destruct (supports_commit commit pk); [|done].
  destruct (temp_dirs !! t) as [[[worktree branch] lock]|].
  - rewrite bind_unfold. unfold lock_acquire. by case_bool_decide.
  - by intros [= <- <-].
Qed.

Lemma transition_ends_with_one W commit keep_going (temp_dirs : TempDirs) s s' :
  ends_with_one s → transition W commit keep_going temp_dirs s s' →
  ends_with_one s'.
Proof.
  intros [Hleave Hfin] Ht.
  destruct Ht as [s Hl Hlt|s i p0 rest Hi Hq|s i p0 pk pk' cwd st Hi Hpk E
                 |s i p0 pk e st Hi Hpk E|s i p0 cwd pk r st Hi Hpk E
                 |s p0 future pk r st Hl Hs Hy Hf Hpk E Hr];
    split; simpl; try done.
  - intros p e'. destruct (decide (p0 = p)) as [->|Hne].
    + rewrite lookup_insert_eq. intros [= <-]. by eapply start_script_status.
    + rewrite lookup_insert_ne by done. apply Hfin.
  - intros p e'. destruct (decide (p0 = p)) as [->|Hne].
    + rewrite lookup_insert_eq. intros [= ->]. revert E. unfold wait_checked.
      case_bool_decide; [done|]. by intros [= <- <-].
    + rewrite lookup_insert_ne by done. apply Hfin.
  - intros e'. destruct r as [|e0|]; [done| |done].
    intros [= <-]. eapply merge_changes_status; [|done].
    intros e' ->. by eapply Hfin.
Qed.

Lemma main_prelude_status W packages s e s' :
  main_prelude W packages s = (Raise e, s') →
  status_one e
  ∨ (e = SystemExit (Some 130%Z)
     ∧ ∃ before, trace s' = before ++ [Eprint "Aborting!"]).
Proof.
  destruct (argv W !! 1) as [path|] eqn:Ha.
  2: { unfold main_prelude. rewrite Ha. intros [= <- <-]. by left. }
  destruct (read_packages W path) as [loaded|] eqn:Hr.
  2: { unfold main_prelude. rewrite Ha. rewrite bind_unfold. cbn [mret M_ret].
       rewrite Hr. intros [= <- <-]. by left. }
  destruct (stdin_line W) as [line|] eqn:Hl.
  - rewrite (main_prelude_read W packages path loaded line s Ha Hr Hl).
    case_bool_decide; [done|]. rewrite app_assoc. intros [= <- <-].
    right. split; [done|]. by exists (trace s ++ announcement loaded).
  - unfold main_prelude. rewrite Ha.
    rewrite bind_unfold. cbn [mret M_ret]. rewrite Hr.
    rewrite bind_unfold. cbn [mret M_ret].
    rewrite bind_unfold. cbn [eprint emit].
    rewrite bind_unfold. cbn [eprint emit].
    rewrite bind_unfold, for_each_eprint.
    rewrite bind_unfold. cbn [eprint emit].
    unfold input. rewrite !bind_unfold. cbn [emit]. rewrite Hl.
    intros [= <- <-]. by left.
Qed.


